(** * cookie_bot: scheduler, session cache and batch generation

    A shallow embedding of the job orchestration code of the repository
    ([scheduler.py], [generator_client.py], [extract_cookies.py]), the
    properties of it that the specification states, and further properties
    that the code itself shows.

    Python objects become records, dictionaries become [gmap]s, the
    process environment (clock, files, the global [schedule] registry)
    becomes an explicit [World], and code that may raise runs in a small
    state-and-exception monad.

    - Times are rationals; [int(x)] is truncation towards zero.
    - The configuration is the parsed [config.json] with fields of the
      types the program writes there: strings for ids and paths, integers
      for the quota and the interval.
    - What lies outside the process (Chrome's cookie database, the file
      system, the generator subprocess, the passing of time) answers
      through an [Env], a function of the world at the time of the call.
    - The scheduler is a transition system: a call of a method and a turn
      of the loop of the background thread are each one transition.
      Interleavings inside a method are not part of the model. *)

From Stdlib Require Import ZArith QArith Qcanon Ascii String List Lia.
From stdpp Require Import base numbers option list strings pretty gmap.

Local Open Scope string_scope.

(** ** Exceptions and the state-and-exception monad *)

(** The exceptions the modelled code can meet. All of them derive from
    Python's [Exception], so every [except Exception] clause catches them. *)
Inductive exn : Type :=
  | AttributeError
  | PermissionError
  | OSError.

Inductive Res (A : Type) : Type :=
  | Ok (a : A)
  | Raise (e : exn).
Arguments Ok {A} a.
Arguments Raise {A} e.

(** A computation over a state [S]: it returns a value or raises, and in
    both cases hands back the state it reached (a Python exception does not
    roll back assignments or writes that happened before it). *)
Definition M (S A : Type) : Type := S -> Res A * S.

Definition ret {S A} (a : A) : M S A := fun s => (Ok a, s).

Definition bind {S A B} (m : M S A) (k : A -> M S B) : M S B :=
  fun s => match m s with
           | (Ok a, s') => k a s'
           | (Raise e, s') => (Raise e, s')
           end.

Definition raise {S A} (e : exn) : M S A := fun s => (Raise e, s).

Definition gets {S A} (f : S -> A) : M S A := fun s => (Ok (f s), s).

Definition modify {S} (f : S -> S) : M S unit := fun s => (Ok tt, f s).

(** [try: m except Exception as e: h e] *)
Definition try_except {S A} (m : M S A) (h : exn -> M S A) : M S A :=
  fun s => match m s with
           | (Ok a, s') => (Ok a, s')
           | (Raise e, s') => h e s'
           end.

(** [try: m finally: f]; an exception of [f] replaces the pending outcome. *)
Definition try_finally {S A} (m : M S A) (f : M S unit) : M S A :=
  fun s => match m s with
           | (r, s') => match f s' with
                        | (Ok _, s'') => (r, s'')
                        | (Raise e, s'') => (Raise e, s'')
                        end
           end.

Declare Scope monad_scope.
Delimit Scope monad_scope with monad.
Notation "'let!' x ':=' m 'in' k" := (bind m (fun x => k))
  (at level 10, x name, m at level 100, k at level 200) : monad_scope.
Notation "m1 ';;' m2" := (bind m1 (fun _ => m2))
  (at level 100, m2 at level 200, right associativity) : monad_scope.
Local Open Scope monad_scope.

(** [for x in l: body x] *)
Fixpoint for_each {S A} (l : list A) (body : A -> M S unit) : M S unit :=
  match l with
  | [] => ret tt
  | x :: l' => body x ;; for_each l' body
  end.

(** [for x in l: body x], where the body updates local variables [r]. *)
Fixpoint for_fold {S A R} (l : list A) (body : A -> R -> M S R) (r : R)
  : M S R :=
  match l with
  | [] => ret r
  | x :: l' => let! r' := body x r in for_fold l' body r'
  end.

(** ** Data model *)

(** A cookie jar: [Dict[str, str]]. *)
Abbreviation Cookies := (gmap string string).

(** Python truthiness of the values the code tests with [if x:]. *)
Definition truthy_str (s : string) : bool :=
  match s with EmptyString => false | _ => true end.

Definition truthy_cookies (c : Cookies) : bool :=
  bool_decide (c ≠ ∅).

(** The JSON object that [save_session] writes; a key may be missing in a
    file that something else wrote. *)
Record Session : Type := mkSession {
  session_cookies : option Cookies;
  session_profile_id : option string;
  session_timestamp : option Z
}.

(** What [json.load] makes of a parsed file: an object, or any other JSON
    value, of which only the truthiness matters to the code. *)
Inductive Json : Type :=
  | JsonDict (s : Session)
  | JsonOther (truthy : bool).

(** A file under [sessions/]: one that cannot even be looked at (the
    check for its existence raises), one that cannot be read as JSON, or
    one that holds a JSON value. *)
Inductive FileData : Type :=
  | NoAccess
  | NotJson
  | IsJson (j : Json).

(** [if not session] on the result of [json.load]: an object without any
    key is falsy. *)
Definition truthy_json (j : Json) : bool :=
  match j with
  | JsonDict s =>
      match session_cookies s, session_profile_id s, session_timestamp s with
      | None, None, None => false
      | _, _, _ => true
      end
  | JsonOther b => b
  end.

(** One entry of [config["profiles"]]; a field is [None] when the key is
    missing. *)
Record Profile : Type := mkProfile {
  profile_id : option string;
  profile_path : option string
}.

Record Config : Type := mkConfig {
  profiles : list Profile;
  email_limit_per_hour : option Z;
  refresh_interval_minutes : option Z
}.

(** [config.get(key, default)] *)
Definition get_default {A} (o : option A) (d : A) : A := default d o.

(** A row of Chrome's cookie table: name, value, host_key, encrypted_value. *)
Record CookieRow : Type := mkRow {
  row_name : string;
  row_value : string;
  row_host : string;
  row_encrypted : string
}.

(** What there is at the path of a profile's cookie database: a place
    that cannot be looked at (the check for its existence raises), no
    file, a file that cannot be copied or queried, or a table of rows,
    given as the answer to the query for each cookie name. *)
Inductive CookieDb : Type :=
  | DbNoAccess
  | DbMissing
  | DbError
  | DbRows (rows : string -> list CookieRow).

(** The result of [subprocess.run]. *)
Inductive ProcOutcome : Type :=
  | ProcRaised
  | ProcDone (returncode : Z) (stdout stderr : string).

(** The result of opening a file for writing and dumping JSON into it. *)
Inductive WriteOutcome : Type :=
  | Written
  | OpenFailed
  | DumpFailed.

(** The body of a job registered with the [schedule] library. *)
Inductive JobFunc : Type :=
  | ExtractCookiesJob
  | GenerateEmailsJob.

Record Job : Type := mkJob {
  job_func : JobFunc;
  job_interval_minutes : Z;
  job_next_run : Qc
}.

(** The calls that leave the process, recorded as they happen. *)
Inductive Event : Type :=
  | EvExtract (profile : option string) (path : string)
  | EvSubprocess (cmd : list string)
  | EvGenerateEmail (profile : string) (label : option string)
      (outcome : Res (bool * option string)).

Record World : Type := mkWorld {
  w_clock : Qc;
  w_sessions : gmap string FileData;
  w_temp : gset string;
  w_jobs : list Job;
  w_trace : list Event
}.

Definition set_clock (t : Qc) (w : World) : World :=
  mkWorld t (w_sessions w) (w_temp w) (w_jobs w) (w_trace w).
Definition set_sessions (f : gmap string FileData) (w : World) : World :=
  mkWorld (w_clock w) f (w_temp w) (w_jobs w) (w_trace w).
Definition set_temp (f : gset string) (w : World) : World :=
  mkWorld (w_clock w) (w_sessions w) f (w_jobs w) (w_trace w).
Definition set_jobs (j : list Job) (w : World) : World :=
  mkWorld (w_clock w) (w_sessions w) (w_temp w) j (w_trace w).
Definition record_event (e : Event) (w : World) : World :=
  mkWorld (w_clock w) (w_sessions w) (w_temp w) (w_jobs w)
    (w_trace w ++ [e])%list.

(** The behaviour of what the program calls but does not decide, as a
    function of the world the call is made in. The trace grows with every
    call, so two calls with the same arguments may be answered differently.

    - [env_cookie_db w path]: what is found at the cookie database [path];
    - [env_decode_utf8 b]: [b.decode('utf-8')], [None] when it raises;
    - [env_write w path]: how opening [path] for writing and dumping JSON
      into it goes;
    - [env_unlink_fails w path]: whether removing [path] raises;
    - [env_subprocess w cmd]: the result of running [cmd];
    - [env_parse_email out]: [_parse_email_from_output(out.strip())]; the
      text processing is written out further below, and [parses_output]
      says of an environment that it parses in that way;
    - [env_elapsed w]: the time the next blocking call takes;
    - [env_join w]: whether the background thread, asked to stop, leaves
      its loop before the timeout of [join]. *)
Record Env : Type := mkEnv {
  env_cookie_db : World -> string -> CookieDb;
  env_decode_utf8 : string -> option string;
  env_write : World -> string -> WriteOutcome;
  env_unlink_fails : World -> string -> bool;
  env_subprocess : World -> list string -> ProcOutcome;
  env_parse_email : string -> option string;
  env_elapsed : World -> Qc;
  env_join : World -> bool
}.

(** [int(x)] of a float: truncation towards zero. *)
Definition int_of (x : Qc) : Z := Z.quot (Qnum x) (Z.pos (Qden x)).

(** ** The program *)

Section Program.

Variable E : Env.

(** *** Clock *)

(** [time.time()] and [datetime.now().timestamp()] *)
Definition time_time : M World Qc := gets w_clock.

(** The time a blocking call takes. *)
Definition elapse : M World unit :=
  modify (fun w => set_clock (w_clock w + env_elapsed E w)%Qc w).

(** [time.sleep(d)] *)
Definition time_sleep (d : Z) : M World unit :=
  modify (fun w => set_clock (w_clock w + Qc_of_Z d)%Qc w) ;; elapse.

(** *** generator_client.py: HideMyEmailGenerator *)

Definition main_script : string := "hidemyemail-generator/main.py".

(** [self.sessions_dir / f"{profile_id}.json"] *)
Definition session_path (profile_id : string) : string :=
  "sessions/" +:+ profile_id +:+ ".json".

(** [load_session]: [None] when the file is missing, unreadable or not
    JSON; otherwise whatever [json.load] returns. The check for the file is
    outside the [try]. *)
Definition load_session (profile_id : string) : M World (option Json) :=
  let! files := gets w_sessions in
  match files !! session_path profile_id with
  | None => ret None
  | Some NoAccess => raise PermissionError
  | Some NotJson => ret None
  | Some (IsJson j) => ret (Some j)
  end.

(** [with open(cookie_file, 'w') as f: json.dump(cookies, f)] *)
Definition write_cookie_file (cookie_file : string) : M World unit :=
  let! w := gets id in
  match env_write E w cookie_file with
  | Written => modify (fun w => set_temp ({[cookie_file]} ∪ w_temp w) w)
  | OpenFailed => raise OSError
  | DumpFailed =>
      modify (fun w => set_temp ({[cookie_file]} ∪ w_temp w) w) ;;
      raise OSError
  end.

(** [subprocess.run(cmd, capture_output=True, text=True, cwd=...)] *)
Definition subprocess_run (cmd : list string) : M World (Z * string * string) :=
  let! w := gets id in
  modify (record_event (EvSubprocess cmd)) ;;
  elapse ;;
  match env_subprocess E w cmd with
  | ProcRaised => raise OSError
  | ProcDone rc out err => ret (rc, out, err)
  end.

(** [if cookie_file.exists(): cookie_file.unlink()] *)
Definition remove_cookie_file (cookie_file : string) : M World unit :=
  let! w := gets id in
  if bool_decide (cookie_file ∈ w_temp w) then
    if env_unlink_fails E w cookie_file then raise OSError
    else modify (fun w => set_temp (w_temp w ∖ {[cookie_file]}) w)
  else ret tt.

Definition truthy_label (label : option string) : bool :=
  match label with Some l => truthy_str l | None => false end.

Definition truthy_email (email : option string) : bool :=
  match email with Some e => truthy_str e | None => false end.

Definition generate_email_body (profile_id : string) (label : option string)
  : M World (bool * option string) :=
  let! session := load_session profile_id in
  match session with
  | None => ret (false, None)
  | Some j =>
      if negb (truthy_json j) then ret (false, None)
      else
        match j with
        | JsonOther _ => raise AttributeError
        | JsonDict s =>
            let cookies := get_default (session_cookies s) ∅ in
            if negb (truthy_cookies cookies) then ret (false, None)
            else
              let cookie_file := "temp_" +:+ profile_id +:+ "_cookies.json" in
              try_finally
                (try_except
                   (write_cookie_file cookie_file ;;
                    let cmd :=
                      (["python"; main_script; "--cookie-file"; cookie_file]
                       ++ (if truthy_label label
                           then ["--label"; get_default label ""]
                           else []))%list in
                    let! result := subprocess_run cmd in
                    let '(returncode, stdout, _) := result in
                    if (returncode =? 0)%Z then
                      let generated_email := env_parse_email E stdout in
                      if truthy_email generated_email
                      then ret (true, generated_email)
                      else ret (false, None)
                    else ret (false, None))
                   (fun _ => ret (false, None)))
                (remove_cookie_file cookie_file)
        end
  end.

(** [generate_email], with the call and its outcome written to the trace. *)
Definition generate_email (profile_id : string) (label : option string)
  : M World (bool * option string) :=
  fun w =>
    let '(r, w') := generate_email_body profile_id label w in
    (r, record_event (EvGenerateEmail profile_id label r) w').

(** [f"{label_prefix}{int(time.time())}_{i}"] *)
Definition make_label (label_prefix : string) (now : Qc) (i : Z) : string :=
  label_prefix +:+ pretty (int_of now) +:+ "_" +:+ pretty i.

(** The body of the inner loop of [generate_batch]. *)
Definition generate_batch_call (profile_id : string) (count_per_profile : Z)
    (label_prefix : string) (i : Z) (results : gmap string (list string))
  : M World (gmap string (list string)) :=
  let! now := time_time in
  let label := make_label label_prefix now i in
  let! outcome := generate_email profile_id (Some label) in
  let '(success, email) := outcome in
  let results :=
    if success && truthy_email email
    then alter (fun l => (l ++ [get_default email ""])%list) profile_id results
    else results in
  (if (i <? count_per_profile - 1)%Z then time_sleep 2 else ret tt) ;;
  ret results.

(** The body of the outer loop of [generate_batch]. *)
Definition generate_batch_profile (count_per_profile : Z)
    (label_prefix : string) (profile_id : string)
    (results : gmap string (list string))
  : M World (gmap string (list string)) :=
  for_fold (seqZ 0 count_per_profile)
    (generate_batch_call profile_id count_per_profile label_prefix)
    (<[profile_id := []]> results).

Definition generate_batch (profile_ids : list string) (count_per_profile : Z)
    (label_prefix : string) : M World (gmap string (list string)) :=
  for_fold profile_ids
    (generate_batch_profile count_per_profile label_prefix) ∅.

(** *** extract_cookies.py: CookieExtractor *)

Definition REQUIRED_COOKIES : list string :=
  [ "X-APPLE-WEBAUTH-HSA-TRUST";
    "X-APPLE-ID-SESSION-ID";
    "X-APPLE-WEBAUTH-USER";
    "dsid";
    "scnt";
    "X-APPLE-ID-TOKEN" ].

(** [_decrypt_cookie_value]: nothing is recovered from a [v10] value;
    any other value is decoded as UTF-8. *)
Definition decrypt_cookie_value (encrypted_value : string) : option string :=
  if String.prefix "v10" encrypted_value then None
  else env_decode_utf8 E encrypted_value.

(** One row of a query result, inside the two loops of
    [extract_cookies_from_profile]. *)
Definition add_cookie_row (cookies : Cookies) (r : CookieRow) : Cookies :=
  if negb (truthy_str (row_value r)) && truthy_str (row_encrypted r) then
    match decrypt_cookie_value (row_encrypted r) with
    | Some decrypted_value =>
        if truthy_str decrypted_value
        then <[row_name r := decrypted_value]> cookies
        else cookies
    | None => cookies
    end
  else if truthy_str (row_value r) then <[row_name r := row_value r]> cookies
  else cookies.

Definition collect_cookies (rows : string -> list CookieRow) : Cookies :=
  foldl (fun cookies cookie_name =>
           foldl add_cookie_row cookies (rows cookie_name))
        ∅ REQUIRED_COOKIES.

(** [extract_cookies_from_profile]; the check for the database file is
    outside the [try], everything after it inside. *)
Definition extract_cookies_from_profile (profile : Profile) : M World Cookies :=
  match profile_path profile with
  | None => ret ∅
  | Some path =>
      if negb (truthy_str path) then ret ∅
      else
        let cookies_path := path +:+ "/Cookies" in
        let! w := gets id in
        modify (record_event (EvExtract (profile_id profile) cookies_path)) ;;
        elapse ;;
        match env_cookie_db E w cookies_path with
        | DbNoAccess => raise PermissionError
        | DbMissing => ret ∅
        | DbError => ret ∅
        | DbRows rows => ret (collect_cookies rows)
        end
  end.

(** [save_session]: the file is opened for writing, which empties it, and
    the new object is dumped into it. *)
Definition save_session (profile_id : string) (cookies : Cookies)
  : M World bool :=
  let session_path := session_path profile_id in
  let! w := gets id in
  match env_write E w session_path with
  | Written =>
      let! now := time_time in
      let session := mkSession (Some cookies) (Some profile_id)
                               (Some (int_of now)) in
      modify (fun w =>
                set_sessions
                  (<[session_path := IsJson (JsonDict session)]> (w_sessions w))
                  w) ;;
      ret true
  | OpenFailed => ret false
  | DumpFailed =>
      modify (fun w => set_sessions
                (<[session_path := NotJson]> (w_sessions w)) w) ;;
      ret false
  end.

Definition truthy_id (profile_id : option string) : bool :=
  match profile_id with Some i => truthy_str i | None => false end.

(** The body of the loop of [extract_all_profiles_cookies]. *)
Definition extract_profile (profile : Profile)
    (all_cookies : gmap string Cookies) : M World (gmap string Cookies) :=
  if negb (truthy_id (profile_id profile)) then ret all_cookies
  else
    let profile_id := get_default (profile_id profile) "" in
    let! cookies := extract_cookies_from_profile profile in
    if truthy_cookies cookies then
      let all_cookies := <[profile_id := cookies]> all_cookies in
      save_session profile_id cookies ;;
      ret all_cookies
    else ret all_cookies.

Definition extract_all_profiles_cookies (config : Config)
  : M World (gmap string Cookies) :=
  for_fold (profiles config) extract_profile ∅.

(** *** scheduler.py: TaskScheduler *)

(** The thread behind [self.scheduler_thread]: started but not yet inside
    [run_scheduler], inside its loop, or finished. *)
Inductive ThreadState : Type :=
  | ThreadNew
  | ThreadLoop
  | ThreadDead.

Record TaskScheduler : Type := mkTaskScheduler {
  config : Config;
  cookie_extractor : Config;
  running : bool;
  scheduler_thread : option ThreadState;
  last_extraction : option Qc;
  next_scheduled : option Qc;
  emails_generated : gmap string Z;
  extraction_counts : gmap string Z
}.

Record System : Type := mkSystem {
  self : TaskScheduler;
  world : World
}.

Definition set_running (b : bool) (t : TaskScheduler) : TaskScheduler :=
  mkTaskScheduler (config t) (cookie_extractor t) b (scheduler_thread t)
    (last_extraction t) (next_scheduled t) (emails_generated t)
    (extraction_counts t).
Definition set_scheduler_thread (th : option ThreadState) (t : TaskScheduler)
  : TaskScheduler :=
  mkTaskScheduler (config t) (cookie_extractor t) (running t) th
    (last_extraction t) (next_scheduled t) (emails_generated t)
    (extraction_counts t).
Definition set_last_extraction (x : option Qc) (t : TaskScheduler)
  : TaskScheduler :=
  mkTaskScheduler (config t) (cookie_extractor t) (running t)
    (scheduler_thread t) x (next_scheduled t) (emails_generated t)
    (extraction_counts t).
Definition set_next_scheduled (x : option Qc) (t : TaskScheduler)
  : TaskScheduler :=
  mkTaskScheduler (config t) (cookie_extractor t) (running t)
    (scheduler_thread t) (last_extraction t) x (emails_generated t)
    (extraction_counts t).
Definition set_emails_generated (m : gmap string Z) (t : TaskScheduler)
  : TaskScheduler :=
  mkTaskScheduler (config t) (cookie_extractor t) (running t)
    (scheduler_thread t) (last_extraction t) (next_scheduled t) m
    (extraction_counts t).
Definition set_extraction_counts (m : gmap string Z) (t : TaskScheduler)
  : TaskScheduler :=
  mkTaskScheduler (config t) (cookie_extractor t) (running t)
    (scheduler_thread t) (last_extraction t) (next_scheduled t)
    (emails_generated t) m.

(** A computation on the world, run from a method of the scheduler. *)
Definition in_world {A} (m : M World A) : M System A :=
  fun s => let '(r, w) := m (world s) in (r, mkSystem (self s) w).

(** An assignment to a field of [self]. *)
Definition update_self (f : TaskScheduler -> TaskScheduler) : M System unit :=
  modify (fun s => mkSystem (f (self s)) (world s)).

(** The profile ids of a configuration that pass [if profile_id]. *)
Definition configured_ids (c : Config) : list string :=
  omap (fun p => if truthy_id (profile_id p) then profile_id p else None)
       (profiles c).

(** [TaskScheduler.__init__], given the parsed configuration file. *)
Definition new_scheduler (c : Config) : TaskScheduler :=
  let zeros := foldl (fun m i => <[i := 0%Z]> m) ∅ (configured_ids c) in
  mkTaskScheduler c c false None None None zeros zeros.

(** [for profile_id in cookies:
       if profile_id in counts: counts[profile_id] += 1] *)
Definition count_extractions (cookies : gmap string Cookies)
    (counts : gmap string Z) : gmap string Z :=
  map_fold (fun profile_id _ counts =>
              if bool_decide (is_Some (counts !! profile_id))
              then alter (fun n => (n + 1)%Z) profile_id counts
              else counts)
           counts cookies.

(** [for profile_id, emails in results.items():
       if profile_id in counts: counts[profile_id] += len(emails)] *)
Definition count_emails (results : gmap string (list string))
    (counts : gmap string Z) : gmap string Z :=
  map_fold (fun profile_id emails counts =>
              if bool_decide (is_Some (counts !! profile_id))
              then alter (fun n => (n + Z.of_nat (length emails))%Z)
                         profile_id counts
              else counts)
           counts results.

(** The [try] block of [extract_cookies_job]. *)
Definition extract_cookies_job_try : M System (gmap string Cookies) :=
  let! extractor := gets (fun s => cookie_extractor (self s)) in
  let! cookies := in_world (extract_all_profiles_cookies extractor) in
  update_self (fun t => set_extraction_counts
                 (count_extractions cookies (extraction_counts t)) t) ;;
  ret cookies.

Definition extract_cookies_job : M System (gmap string Cookies) :=
  let! now := in_world time_time in
  update_self (set_last_extraction (Some now)) ;;
  try_except extract_cookies_job_try (fun _ => ret ∅).

(** The [try] block of [generate_emails_job]. *)
Definition generate_emails_job_try : M System (gmap string (list string)) :=
  let! config := gets (fun s => config (self s)) in
  let email_limit := get_default (email_limit_per_hour config) 5%Z in
  let profile_ids := configured_ids config in
  let! results := in_world (generate_batch profile_ids email_limit "Auto_") in
  update_self (fun t => set_emails_generated
                 (count_emails results (emails_generated t)) t) ;;
  ret results.

Definition generate_emails_job : M System (gmap string (list string)) :=
  try_except generate_emails_job_try (fun _ => ret ∅).

(** [schedule.every(interval).minutes.do(job)]: the job is appended to the
    registry of the [schedule] library, first due one period from now. *)
Definition schedule_every_minutes (interval : Z) (f : JobFunc) : M World unit :=
  let! now := time_time in
  let job := mkJob f interval (now + Qc_of_Z (interval * 60))%Qc in
  modify (fun w => set_jobs (w_jobs w ++ [job])%list w).

Definition schedule_jobs : M System unit :=
  let! config := gets (fun s => config (self s)) in
  let refresh_interval := get_default (refresh_interval_minutes config) 60%Z in
  in_world (schedule_every_minutes refresh_interval ExtractCookiesJob) ;;
  in_world (schedule_every_minutes refresh_interval GenerateEmailsJob) ;;
  let! now := in_world time_time in
  update_self (set_next_scheduled
                 (Some (now + Qc_of_Z (refresh_interval * 60))%Qc)).

(** [schedule.run_pending()], after the behaviour the [schedule] library
    documents: the jobs that are due now are run in the order of their due
    times, and each is given its next due time when it returns. *)
Definition should_run (now : Qc) (j : Job) : bool :=
  bool_decide (job_next_run j ≤ now)%Qc.

Fixpoint insert_sorted (x : nat * Job) (l : list (nat * Job))
  : list (nat * Job) :=
  match l with
  | [] => [x]
  | y :: l' =>
      if bool_decide (job_next_run y.2 < job_next_run x.2)%Qc
      then y :: insert_sorted x l'
      else x :: y :: l'
  end.

Definition sorted (l : list (nat * Job)) : list (nat * Job) :=
  foldr insert_sorted [] l.

Definition runnable_jobs (now : Qc) (jobs : list Job) : list (nat * Job) :=
  List.filter (fun p => should_run now p.2) (imap pair jobs).

Definition schedule_next_run (i : nat) : M World unit :=
  let! now := time_time in
  modify (fun w => set_jobs
            (alter (fun j => mkJob (job_func j) (job_interval_minutes j)
                       (now + Qc_of_Z (job_interval_minutes j * 60))%Qc)
                   i (w_jobs w))
            w).

Definition run_job (f : JobFunc) : M System unit :=
  match f with
  | ExtractCookiesJob => extract_cookies_job ;; ret tt
  | GenerateEmailsJob => generate_emails_job ;; ret tt
  end.

Definition run_pending : M System unit :=
  let! now := in_world time_time in
  let! jobs := gets (fun s => w_jobs (world s)) in
  for_each (sorted (runnable_jobs now jobs))
    (fun p => run_job (job_func p.2) ;; in_world (schedule_next_run p.1)).

(** [Thread.is_alive()] of [self.scheduler_thread], [False] without one. *)
Definition is_alive (th : option ThreadState) : bool :=
  match th with
  | Some ThreadNew | Some ThreadLoop => true
  | Some ThreadDead | None => false
  end.

(** One step of the thread that runs [run_scheduler]: entering the
    method sets [self.running]; after that each step is one turn of the
    loop, which ends the thread once [self.running] is found false. *)
Definition run_scheduler_step : M System unit :=
  let! th := gets (fun s => scheduler_thread (self s)) in
  match th with
  | Some ThreadNew =>
      update_self (set_running true) ;;
      update_self (set_scheduler_thread (Some ThreadLoop))
  | Some ThreadLoop =>
      let! r := gets (fun s => running (self s)) in
      if r then run_pending ;; in_world (time_sleep 1)
      else update_self (set_scheduler_thread (Some ThreadDead))
  | Some ThreadDead | None => ret tt
  end.

Definition start : M System bool :=
  let! th := gets (fun s => scheduler_thread (self s)) in
  if is_alive th then ret false
  else
    schedule_jobs ;;
    extract_cookies_job ;;
    update_self (set_scheduler_thread (Some ThreadNew)) ;;
    ret true.

(** [self.scheduler_thread.join(timeout)]: the caller waits until the
    thread has left its loop, which it does only after it found
    [self.running] false, or until the timeout has passed. *)
Definition thread_join (timeout : Z) : M System unit :=
  let! s := gets id in
  match scheduler_thread (self s) with
  | Some ThreadLoop =>
      if negb (running (self s)) && env_join E (world s) then
        in_world elapse ;;
        update_self (set_scheduler_thread (Some ThreadDead))
      else in_world (time_sleep timeout)
  | Some ThreadNew => in_world (time_sleep timeout)
  | Some ThreadDead | None => ret tt
  end.

Definition stop : M System bool :=
  let! r := gets (fun s => running (self s)) in
  if negb r then ret false
  else
    update_self (set_running false) ;;
    thread_join 5 ;;
    ret true.

(** The dictionary that [get_status] returns. The two formatted times are
    kept as timestamps. *)
Record Status : Type := mkStatus {
  status_running : bool;
  status_last_extraction : option Qc;
  status_next_scheduled : option Qc;
  status_time_until_next : option Z;
  status_emails_generated : gmap string Z;
  status_extraction_counts : gmap string Z
}.

(** [if self.next_scheduled]: neither [None] nor [0.0]. *)
Definition truthy_time (t : option Qc) : bool :=
  match t with Some x => bool_decide (x ≠ 0%Qc) | None => false end.

Definition get_status : M System Status :=
  let! t := gets self in
  let! now := in_world time_time in
  ret (mkStatus
         (running t)
         (last_extraction t)
         (if truthy_time (next_scheduled t) then next_scheduled t else None)
         (if truthy_time (next_scheduled t)
          then Some (int_of (get_default (next_scheduled t) 0 - now)%Qc)
          else None)
         (emails_generated t)
         (extraction_counts t)).

Definition run_now : M System (bool * gmap string (list string)) :=
  let! cookies := extract_cookies_job in
  let! emails := generate_emails_job in
  let! config := gets (fun s => config (self s)) in
  let refresh_interval := get_default (refresh_interval_minutes config) 60%Z in
  let! now := in_world time_time in
  update_self (set_next_scheduled
                 (Some (now + Qc_of_Z (refresh_interval * 60))%Qc)) ;;
  ret (bool_decide (cookies ≠ ∅), emails).

(** *** The scheduler as a transition system *)

(** What can happen to a scheduler: a call of one of its methods from the
    foreground, or a step of its background thread. Each is taken as one
    indivisible transition. *)
Inductive Op : Type :=
  | CallStart
  | CallStop
  | CallRunNow
  | CallGetStatus
  | Background.

Definition run_op (o : Op) : M System unit :=
  match o with
  | CallStart => start ;; ret tt
  | CallStop => stop ;; ret tt
  | CallRunNow => run_now ;; ret tt
  | CallGetStatus => get_status ;; ret tt
  | Background => run_scheduler_step
  end.

Definition step (o : Op) (s : System) : System := (run_op o s).2.

Definition run_ops (ops : list Op) (s : System) : System :=
  foldl (fun s o => step o s) s ops.

(** The states of a scheduler built from a configuration [c] in a world
    [w] and then used in any way. *)
Definition reachable (c : Config) (w : World) (s : System) : Prop :=
  exists ops, s = run_ops ops (mkSystem (new_scheduler c) w).

End Program.

(** ** Vocabulary of the properties *)

(** A call of [generate_email], as the trace holds it. *)
Record Call : Type := mkCall {
  call_profile : string;
  call_label : option string;
  call_outcome : Res (bool * option string)
}.

Definition gen_calls (tr : list Event) : list Call :=
  omap (fun e => match e with
                 | EvGenerateEmail p l r => Some (mkCall p l r)
                 | _ => None
                 end) tr.

(** The events a computation added to the trace. *)
Definition new_trace (w w' : World) : list Event :=
  drop (length (w_trace w)) (w_trace w').

Definition calls_for (profile_id : string) (cs : list Call) : list Call :=
  filter (fun c => call_profile c = profile_id) cs.

(** The call returned [(True, _)]. *)
Definition succeeded (c : Call) : bool :=
  match call_outcome c with
  | Ok (true, _) => true
  | _ => false
  end.

(** The address a call contributed to the result of a batch. *)
Definition generated (c : Call) : option string :=
  match call_outcome c with
  | Ok (true, Some e) => if truthy_str e then Some e else None
  | _ => None
  end.

Definition emails_of (cs : list Call) : list string := omap generated cs.

(** The trace grew, by events that all satisfy [P]. *)
Definition trace_grows (P : Event -> Prop) (w w' : World) : Prop :=
  exists tr, w_trace w' = (w_trace w ++ tr)%list /\ Forall P tr.

Definition is_subprocess (e : Event) : Prop :=
  match e with EvSubprocess _ => True | _ => False end.

(** What the code knows of a successful call: it carries an address. *)
Definition call_ok (c : Call) : Prop :=
  succeeded c = true -> is_Some (generated c).

(** The character [a] occurs in [s]. *)
Fixpoint has_char (a : ascii) (s : string) : Prop :=
  match s with
  | EmptyString => False
  | String b s' => a = b \/ has_char a s'
  end.

(** The call with index [i] of the pass over profile [p]. *)
Definition call_of_pass (label_prefix p : string) (i : Z) (c : Call) : Prop :=
  call_profile c = p
  /\ (exists t, call_label c = Some (make_label label_prefix t i))
  /\ call_ok c.

(** A session file that [generate_email] can deal with: not one whose
    look-up raises, and not a JSON value other than an object. *)
Definition session_usable (f : option FileData) : Prop :=
  match f with
  | Some NoAccess | Some (IsJson (JsonOther true)) => False
  | _ => True
  end.

Definition same_sessions (w w' : World) : Prop :=
  w_sessions w' = w_sessions w.

(** Removing a temporary file never fails. *)
Definition unlink_works (E : Env) : Prop :=
  forall w path, env_unlink_fails E w path = false.

(** The clock never runs backwards during a blocking call. *)
Definition clock_monotone (E : Env) : Prop :=
  forall w, (0 ≤ env_elapsed E w)%Qc.

Definition clock_le (w w' : World) : Prop := (w_clock w ≤ w_clock w')%Qc.

(** The call with index [i] of a pass that ran from time [T] to time [T'],
    the first index looked at being [k]: its label was made at a time [t]
    within the pass, two seconds before the end unless it is the last of
    the quota, and two seconds after the start unless it is the first. *)
Definition timed_call (label_prefix : string) (n : Z) (T T' : Qc) (k i : Z)
    (c : Call) : Prop :=
  exists t, call_label c = Some (make_label label_prefix t i)
            /\ (T ≤ t)%Qc /\ (t ≤ T')%Qc
            /\ ((i < n - 1)%Z -> (t + Qc_of_Z 2 ≤ T')%Qc)
            /\ ((k < i)%Z -> (T + Qc_of_Z 2 ≤ t)%Qc).

(** A call of a pass that ended by time [T]. *)
Definition past_call (label_prefix : string) (n : Z) (T : Qc) (c : Call)
  : Prop :=
  exists t i, call_label c = Some (make_label label_prefix t i)
              /\ (0 <= i < n)%Z
              /\ (t ≤ T)%Qc
              /\ ((i < n - 1)%Z -> (t + Qc_of_Z 2 ≤ T)%Qc).

(** A counter map never loses a key and never lowers a count. *)
Definition counters_le (m m' : gmap string Z) : Prop :=
  forall i n, m !! i = Some n -> exists n', m' !! i = Some n' /\ (n <= n')%Z.

(** A relation between the scheduler object before and after. *)
Definition self_rel (Q : TaskScheduler -> TaskScheduler -> Prop)
    (s s' : System) : Prop :=
  Q (self s) (self s').

(** The field [f] of the scheduler object has not changed. *)
Definition keeps {A} (f : TaskScheduler -> A) : System -> System -> Prop :=
  self_rel (fun t t' => f t' = f t).

(** Both counter maps of the scheduler object have only grown. *)
Definition counters_grow : System -> System -> Prop :=
  self_rel (fun t t' =>
              counters_le (extraction_counts t) (extraction_counts t')
              /\ counters_le (emails_generated t) (emails_generated t')).

(** What [run_now] adds to the extraction count of a profile, given the
    cookies the extraction job returned. *)
Definition count_if_extracted (cookies : gmap string Cookies) (i : string)
    (n : Z) : Z :=
  if bool_decide (is_Some (cookies !! i)) then (n + 1)%Z else n.

(** [self.running] and [self.scheduler_thread] are as they were. *)
Definition same_control : System -> System -> Prop :=
  self_rel (fun t t' => running t' = running t
                        /\ scheduler_thread t' = scheduler_thread t).

(** [self.running] is true only while the thread is inside its loop. *)
Definition running_has_thread (s : System) : Prop :=
  running (self s) = true -> scheduler_thread (self s) = Some ThreadLoop.

(** A computation that relates every state it starts in to the state it
    ends in, whatever it returns or raises. *)
Definition preserves {S A} (R : S -> S -> Prop) (m : M S A) : Prop :=
  forall s r s', m s = (r, s') -> R s s'.

(** A computation that never raises. *)
Definition returns {S A} (m : M S A) : Prop :=
  forall s, exists a s', m s = (Ok a, s').

(** The properties the specification words differently from the code. *)

(** Every configured profile has its extraction count raised by [run_now]. *)
Definition counts_every_attempt (E : Env) (s : System) : Prop :=
  forall i, i ∈ configured_ids (cookie_extractor (self s)) ->
    extraction_counts (self (run_now E s).2) !! i
    = Z.succ <$> extraction_counts (self s) !! i.

(** No call follows a failed call for the same profile. *)
Definition stops_after_failure (cs : list Call) : Prop :=
  forall k k' c c',
    cs !! k = Some c -> cs !! k' = Some c' -> k < k' ->
    succeeded c = false -> call_profile c' ≠ call_profile c.

(** No two calls carry the same label. *)
Definition labels_unique (cs : list Call) : Prop :=
  NoDup (map call_label cs).


(** ** A concrete installation

    Two profiles, [A] and [B]. Chrome has a cookie database for [A] only.
    The generator prints an address whenever it exits with code 0, every
    blocking call takes a tenth of a second, and the clock starts at 1000. *)

Definition has_subprocess (tr : list Event) : bool :=
  existsb (fun e => match e with EvSubprocess _ => true | _ => false end) tr.

(** With [first_fails] the generator exits with code 1 the first time it
    is run. *)
Definition example_env (first_fails : bool) : Env :=
  mkEnv
    (fun _ path =>
       if bool_decide (path = "/chrome/A/Cookies")
       then DbRows (fun name => [mkRow name "value" ".apple.com" ""])
       else DbMissing)
    (fun s => Some s)
    (fun _ _ => Written)
    (fun _ _ => false)
    (fun w _ =>
       if first_fails && negb (has_subprocess (w_trace w))
       then ProcDone 1 "" "error"
       else ProcDone 0 "Generated email: a@icloud.com" "")
    (fun out => if bool_decide (out = "") then None else Some "a@icloud.com")
    (fun _ => Q2Qc (1 # 10))
    (fun _ => true).

Definition example_cookies : Cookies := {[ "dsid" := "1" ]}.

Definition example_session (p : string) : FileData :=
  IsJson (JsonDict (mkSession (Some example_cookies) (Some p) (Some 990%Z))).

(** A world without any session file. *)
Definition fresh_world : World := mkWorld (Qc_of_Z 1000) ∅ ∅ [] [].

(** A world with a session file for each of [A] and [B]. *)
Definition cached_world : World :=
  mkWorld (Qc_of_Z 1000)
    {[ session_path "A" := example_session "A";
       session_path "B" := example_session "B" ]}
    ∅ [] [].

(** Quota 3, interval one minute. *)
Definition example_config : Config :=
  mkConfig [ mkProfile (Some "A") (Some "/chrome/A");
             mkProfile (Some "B") (Some "/chrome/B") ]
           (Some 3%Z) (Some 1%Z).

Definition fresh_system : System :=
  mkSystem (new_scheduler example_config) fresh_world.

(** The same installation, with Chrome's directories closed to the
    process. *)
Definition denied_env : Env :=
  mkEnv (fun _ _ => DbNoAccess)
        (env_decode_utf8 (example_env false))
        (env_write (example_env false))
        (env_unlink_fails (example_env false))
        (env_subprocess (example_env false))
        (env_parse_email (example_env false))
        (env_elapsed (example_env false))
        (env_join (example_env false)).

(** A world in which the session file of [A] holds a JSON list. *)
Definition broken_world : World :=
  mkWorld (Qc_of_Z 1000) {[ session_path "A" := IsJson (JsonOther true) ]}
          ∅ [] [].

Definition broken_system : System :=
  mkSystem (new_scheduler example_config) broken_world.

(** The result and the final world of a run that returned. *)
Definition result_of {S A} (d : A) (run : Res A * S) : A :=
  match run.1 with Ok a => a | Raise _ => d end.

(** Runs of the installation. *)

Definition quota_run :=
  generate_batch (example_env false) ["A"; "B"] 3 "Auto_" cached_world.

Definition failing_run :=
  generate_batch (example_env true) ["A"] 3 "Auto_" cached_world.

Definition single_run :=
  generate_batch (example_env false) ["A"; "B"] 1 "Auto_" cached_world.

Definition repeated_run :=
  generate_batch (example_env true) ["A"; "A"; "B"] 2 "Auto_" cached_world.

Definition other_cookies : Cookies := {[ "scnt" := "2" ]}.

Definition first_save :=
  save_session (example_env false) "A" example_cookies fresh_world.

Definition second_save :=
  save_session (example_env false) "A" other_cookies first_save.2.

(** The scheduler after [start()] and the first step of its thread. *)
Definition started_system : System :=
  run_ops (example_env false) [CallStart; Background] fresh_system.



(** ** More vocabulary: the generator client *)

(** [Path(f"temp_{profile_id}_cookies.json")] *)
Definition cookie_file_of (profile_id : string) : string :=
  "temp_" +:+ profile_id +:+ "_cookies.json".

(** The command line that [generate_email] builds. *)
Definition generator_command (profile_id : string) (label : option string)
  : list string :=
  (["python"; main_script; "--cookie-file"; cookie_file_of profile_id]
   ++ (if truthy_label label then ["--label"; get_default label ""] else []))%list.

(** A session file from which [generate_email] gets no cookies: none at all,
    one that is not JSON, a falsy JSON value, or an object whose ["cookies"]
    are missing or empty. *)
Definition lacks_cookies (f : option FileData) : bool :=
  match f with
  | None | Some NotJson => true
  | Some NoAccess => false
  | Some (IsJson (JsonOther b)) => negb b
  | Some (IsJson (JsonDict s)) =>
      negb (truthy_cookies (get_default (session_cookies s) ∅))
  end.

(** ** More vocabulary: the cookie extractor *)



(** A row whose value Chrome keeps only in encrypted form, under the [v10]
    scheme. *)
Definition v10_row (r : CookieRow) : Prop :=
  row_value r = "" /\ String.prefix "v10" (row_encrypted r) = true.

(** The cookie [k] with value [v] was read off the row [r]: [v] is the
    plain value of the row, or, when that is empty, its decoded encrypted
    value. *)
Definition read_off (E : Env) (r : CookieRow) (k v : string) : Prop :=
  row_name r = k
  /\ (v = row_value r
      \/ (row_value r = ""
          /\ String.prefix "v10" (row_encrypted r) = false
          /\ env_decode_utf8 E (row_encrypted r) = Some v)).

(** ** More vocabulary: the scheduler *)

(** A relation between the world before and after. *)
Definition world_rel (R : World -> World -> Prop) (s s' : System) : Prop :=
  R (world s) (world s').

(** The registry of the [schedule] library is as it was. *)
Definition same_jobs (w w' : World) : Prop := w_jobs w' = w_jobs w.

(** The registry still holds the jobs it held, in their order, possibly
    followed by new ones. *)
Definition jobs_grow (w w' : World) : Prop :=
  map job_func (w_jobs w) `prefix_of` map job_func (w_jobs w').

(** The two jobs that [schedule_jobs] registers at time [now]. *)
Definition new_jobs (interval : Z) (now : Qc) : list Job :=
  [ mkJob ExtractCookiesJob interval (now + Qc_of_Z (interval * 60))%Qc;
    mkJob GenerateEmailsJob interval (now + Qc_of_Z (interval * 60))%Qc ].

(** A counter map has a count, not below zero, for exactly the configured
    profile ids. *)
Definition counters_for (c : Config) (m : gmap string Z) : Prop :=
  (forall i, is_Some (m !! i) <-> i ∈ configured_ids c)
  /\ (forall i n, m !! i = Some n -> (0 <= n)%Z).

(** The keys of both counter maps and the two copies of the configuration
    are as they were. *)
Definition same_keys (t t' : TaskScheduler) : Prop :=
  (forall i, is_Some (emails_generated t' !! i)
             <-> is_Some (emails_generated t !! i))
  /\ (forall i, is_Some (extraction_counts t' !! i)
                <-> is_Some (extraction_counts t !! i))
  /\ config t' = config t
  /\ cookie_extractor t' = cookie_extractor t.

(** [len(results[i])], zero without an entry. *)
Definition generated_for (results : gmap string (list string)) (i : string)
  : Z :=
  Z.of_nat (length (default [] (results !! i))).

(** ** generator_client.py: [_parse_email_from_output]

    The text processing of the parser, on strings whose characters are the
    code points below 256. The methods of [str] it uses are written out
    after their documented behaviour. *)

(** [c.isspace()] *)
Definition isspace (c : ascii) : bool :=
  let n := N_of_ascii c in
  ((9 <=? n) && (n <=? 13) || (28 <=? n) && (n <=? 31) || (n =? 32)
   || (n =? 133) || (n =? 160))%N.

(** The characters at which [str.splitlines] breaks a line. *)
Definition is_linebreak (c : ascii) : bool :=
  let n := N_of_ascii c in
  ((10 <=? n) && (n <=? 13) || (28 <=? n) && (n <=? 30) || (n =? 133))%N.

(** [sub in s] *)
Fixpoint str_in (sub s : string) : bool :=
  String.prefix sub s
  || match s with
     | EmptyString => false
     | String _ s' => str_in sub s'
     end.

(** [s.splitlines()]: [cur] is the line read so far, [after_cr] tells that
    the last character was a carriage return, which a line feed may follow
    as part of the same line break. A last line without characters is not
    a line. *)
Fixpoint splitlines_go (after_cr : bool) (cur s : string) : list string :=
  match s with
  | EmptyString => if truthy_str cur then [cur] else []
  | String c s' =>
      if after_cr && Ascii.eqb c "010" then splitlines_go false cur s'
      else if is_linebreak c
           then cur :: splitlines_go (Ascii.eqb c "013") EmptyString s'
           else splitlines_go false (cur +:+ String c EmptyString) s'
  end.

Definition splitlines (s : string) : list string :=
  splitlines_go false EmptyString s.

(** [s.split()]: the maximal runs of characters that are not whitespace. *)
Fixpoint split_go (cur s : string) : list string :=
  match s with
  | EmptyString => if truthy_str cur then [cur] else []
  | String c s' =>
      if isspace c
      then ((if truthy_str cur then [cur] else []) ++ split_go EmptyString s')%list
      else split_go (cur +:+ String c EmptyString) s'
  end.

Definition split_whitespace (s : string) : list string :=
  split_go EmptyString s.

(** [s.strip()] *)
Fixpoint lstrip (s : string) : string :=
  match s with
  | EmptyString => EmptyString
  | String c s' => if isspace c then lstrip s' else s
  end.

Fixpoint rstrip (s : string) : string :=
  match s with
  | EmptyString => EmptyString
  | String c s' =>
      match rstrip s' with
      | EmptyString => if isspace c then EmptyString else String c EmptyString
      | r => String c r
      end
  end.

Definition strip (s : string) : string := rstrip (lstrip s).

Fixpoint string_drop (n : nat) (s : string) : string :=
  match n, s with
  | O, _ => s
  | S n', String _ s' => string_drop n' s'
  | S _, EmptyString => EmptyString
  end.

(** What precedes and what follows the first occurrence of [sep] in [s]. *)
Fixpoint before_sep (sep s : string) : string :=
  if String.prefix sep s then EmptyString
  else match s with
       | EmptyString => EmptyString
       | String c s' => String c (before_sep sep s')
       end.

Fixpoint after_sep (sep s : string) : string :=
  if String.prefix sep s then string_drop (String.length sep) s
  else match s with
       | EmptyString => EmptyString
       | String _ s' => after_sep sep s'
       end.

(** [line.split(sep)[1]], for a line in which [sep] occurs: what lies
    between its first and its second occurrence. *)
Definition split_second (sep line : string) : string :=
  before_sep sep (after_sep sep line).

(** ["@" in s and "." in s] *)
Definition has_at_and_dot (s : string) : bool := str_in "@" s && str_in "." s.

(** The inner loop of the parser, over the parts of a line. *)
Fixpoint parse_parts (parts : list string) : option string :=
  match parts with
  | [] => None
  | part :: parts' =>
      if has_at_and_dot part then Some (strip part) else parse_parts parts'
  end.

(** The outer loop of the parser, over the lines of the output. *)
Fixpoint parse_lines (lines : list string) : option string :=
  match lines with
  | [] => None
  | line :: lines' =>
      if has_at_and_dot line && str_in "Generated email:" line
      then Some (strip (split_second "Generated email:" line))
      else if has_at_and_dot line
           then match parse_parts (split_whitespace line) with
                | Some part => Some part
                | None => parse_lines lines'
                end
           else parse_lines lines'
  end.

Definition _parse_email_from_output (output : string) : option string :=
  parse_lines (splitlines output).

(** No character of [s] is whitespace. *)
Fixpoint no_space (s : string) : bool :=
  match s with
  | EmptyString => true
  | String c s' => negb (isspace c) && no_space s'
  end.

(** The environment parses the output of the generator as the program
    does: [_parse_email_from_output(result.stdout.strip())]. *)
Definition parses_output (E : Env) : Prop :=
  forall out, env_parse_email E out = _parse_email_from_output (strip out).

(** ** More runs of the installation *)

(** A world with a session file for [A] only. *)
Definition half_cached_world : World :=
  mkWorld (Qc_of_Z 1000) {[ session_path "A" := example_session "A" ]} ∅ [] [].

(** The installation with the parser of the program in place. *)
Definition parsing_env : Env :=
  mkEnv (env_cookie_db (example_env false))
        (env_decode_utf8 (example_env false))
        (env_write (example_env false))
        (env_unlink_fails (example_env false))
        (env_subprocess (example_env false))
        (fun out => _parse_email_from_output (strip out))
        (env_elapsed (example_env false))
        (env_join (example_env false)).

Definition cached_call :=
  generate_email (example_env false) "A" (Some "first") cached_world.

Definition parsed_call := generate_email parsing_env "A" None cached_world.

Definition half_run :=
  generate_batch (example_env false) (["A"] ++ "B" :: [])%list 2 "Auto_"
    half_cached_world.



Definition first_start := start (example_env false) fresh_system.

Definition first_stop := stop (example_env false) started_system.



(** ** Reasoning about computations *)

Section Monad.

Context {S : Type}.

Lemma bind_ok {A B} (m : M S A) (k : A -> M S B) s b s' :
  bind m k s = (Ok b, s') ->
  exists a s1, m s = (Ok a, s1) /\ k a s1 = (Ok b, s').
Proof.
  unfold bind. destruct (m s) as [[a|e] s1]; intros H; [eauto | discriminate].
Qed.

Lemma bind_inv {A B} (m : M S A) (k : A -> M S B) s r s' :
  bind m k s = (r, s') ->
  (exists a s1, m s = (Ok a, s1) /\ k a s1 = (r, s'))
  \/ (exists e, m s = (Raise e, s') /\ r = Raise e).
Proof.
  unfold bind. destruct (m s) as [[a|e] s1]; intros H.
  - left. eauto.
  - right. injection H as <- <-. eauto.
Qed.

Lemma bind_run {A B} (m : M S A) (k : A -> M S B) s a s1 :
  m s = (Ok a, s1) -> bind m k s = k a s1.
Proof. unfold bind. by intros ->. Qed.

Lemma for_fold_app {A R} (l1 l2 : list A) (body : A -> R -> M S R) r s :
  for_fold (l1 ++ l2) body r s
  = bind (for_fold l1 body r) (fun r1 => for_fold l2 body r1) s.
Proof.
  revert r s. induction l1 as [|x l1 IH]; intros r s; simpl; [done|].
  unfold bind. destruct (body x r s) as [[r'|e] s1]; [|done].
  by rewrite IH.
Qed.

Section Preserves.

Context (R : S -> S -> Prop) `{!PreOrder R}.

Lemma preserves_ret {A} (a : A) : preserves R (ret a).
Proof. intros s r s' [= _ <-]. reflexivity. Qed.

Lemma preserves_raise {A} (e : exn) : preserves R (@raise S A e).
Proof. intros s r s' [= _ <-]. reflexivity. Qed.

Lemma preserves_gets {A} (f : S -> A) : preserves R (gets f).
Proof. intros s r s' [= _ <-]. reflexivity. Qed.

Lemma preserves_modify (f : S -> S) :
  (forall s, R s (f s)) -> preserves R (modify f).
Proof. intros Hf s r s' [= _ <-]. apply Hf. Qed.

Lemma preserves_bind {A B} (m : M S A) (k : A -> M S B) :
  preserves R m -> (forall a, preserves R (k a)) -> preserves R (bind m k).
Proof.
  intros Hm Hk s r s'. unfold bind.
  destruct (m s) as [[a|e] s1] eqn:Hms; intros H.
  - transitivity s1; [by eapply Hm | by eapply Hk].
  - injection H as _ <-. by eapply Hm.
Qed.

Lemma preserves_try_except {A} (m : M S A) (h : exn -> M S A) :
  preserves R m -> (forall e, preserves R (h e)) ->
  preserves R (try_except m h).
Proof.
  intros Hm Hh s r s'. unfold try_except.
  destruct (m s) as [[a|e] s1] eqn:Hms; intros H.
  - injection H as _ <-. by eapply Hm.
  - transitivity s1; [by eapply Hm | by eapply Hh].
Qed.

Lemma preserves_try_finally {A} (m : M S A) (f : M S unit) :
  preserves R m -> preserves R f -> preserves R (try_finally m f).
Proof.
  intros Hm Hf s r s'. unfold try_finally.
  destruct (m s) as [r1 s1] eqn:Hms.
  destruct (f s1) as [[[]|e] s2] eqn:Hfs; intros [= _ <-];
    (transitivity s1; [by eapply Hm | by eapply Hf]).
Qed.

Lemma preserves_for_fold {A B} (l : list A) (body : A -> B -> M S B) b :
  (forall x b, preserves R (body x b)) -> preserves R (for_fold l body b).
Proof.
  intros Hbody. revert b. induction l as [|x l IH]; intros b; simpl.
  - apply preserves_ret.
  - apply preserves_bind; auto.
Qed.

Lemma preserves_for_each {A} (l : list A) (body : A -> M S unit) :
  (forall x, preserves R (body x)) -> preserves R (for_each l body).
Proof.
  intros Hbody. induction l as [|x l IH]; simpl.
  - apply preserves_ret.
  - apply preserves_bind; auto.
Qed.

End Preserves.

Lemma returns_ret {A} (a : A) : returns (@ret S A a).
Proof. intros s. by eexists _, _. Qed.

Lemma returns_gets {A} (f : S -> A) : returns (gets f).
Proof. intros s. by eexists _, _. Qed.

Lemma returns_modify (f : S -> S) : returns (modify f).
Proof. intros s. by eexists _, _. Qed.

Lemma returns_bind {A B} (m : M S A) (k : A -> M S B) :
  returns m -> (forall a, returns (k a)) -> returns (bind m k).
Proof.
  intros Hm Hk s. destruct (Hm s) as (a & s1 & Hms).
  rewrite (bind_run _ _ _ _ _ Hms). apply Hk.
Qed.

Lemma returns_try_except {A} (m : M S A) (h : exn -> M S A) :
  (forall e, returns (h e)) -> returns (try_except m h).
Proof.
  intros Hh s. unfold try_except. destruct (m s) as [[a|e] s1].
  - by eexists _, _.
  - apply Hh.
Qed.

End Monad.

Create HintDb preserves.
#[export] Hint Resolve preserves_ret preserves_raise preserves_gets
  preserves_bind preserves_try_except preserves_try_finally
  preserves_for_fold preserves_for_each : preserves.

Create HintDb returns.
#[export] Hint Resolve returns_ret returns_gets returns_modify returns_bind
  returns_try_except : returns.

(** ** The session cache: [save_session] and [load_session] *)

Section SessionCache.

Variable E : Env.

Lemma save_session_returns profile_id cookies :
  returns (save_session E profile_id cookies).
Proof.
  intros w. unfold save_session, bind, gets, time_time, modify, ret.
  simpl. destruct (env_write E w _); by eexists _, _.
Qed.

Lemma save_session_written profile_id cookies w w' :
  save_session E profile_id cookies w = (Ok true, w') ->
  w_sessions w' !! session_path profile_id
  = Some (IsJson (JsonDict (mkSession (Some cookies) (Some profile_id)
                                      (Some (int_of (w_clock w)))))).
Proof.
  unfold save_session, bind, gets, time_time, modify, ret. simpl.
  destruct (env_write E w _); intros [= <-]; simpl.
  by rewrite lookup_insert_eq.
Qed.

Lemma load_session_found profile_id w j :
  w_sessions w !! session_path profile_id = Some (IsJson j) ->
  load_session profile_id w = (Ok (Some j), w).
Proof.
  intros H. unfold load_session, bind, gets, ret. simpl. by rewrite H.
Qed.

(** C4. A successful [save_session] followed by [load_session] for the
    same profile returns the object that was written, with exactly the
    cookies that were passed in; after a second successful [save_session]
    for that profile the object read back is the second one alone,
    whatever the first call had stored. *)
Theorem save_session_load_session profile_id c1 c2 w b1 w1 w2 :
  save_session E profile_id c1 w = (Ok b1, w1) ->
  save_session E profile_id c2 w1 = (Ok true, w2) ->
  (b1 = true ->
   load_session profile_id w1
   = (Ok (Some (JsonDict (mkSession (Some c1) (Some profile_id)
                                    (Some (int_of (w_clock w)))))), w1))
  /\ load_session profile_id w2
     = (Ok (Some (JsonDict (mkSession (Some c2) (Some profile_id)
                                      (Some (int_of (w_clock w1)))))), w2).
Proof.
  intros H1 H2. split.
  - intros ->. by apply load_session_found, save_session_written.
  - by apply load_session_found, save_session_written.
Qed.

End SessionCache.

(** ** Batch generation: [generate_email] and [generate_batch] *)

Section Batch.

Variable E : Env.

#[local] Instance trace_grows_preorder P : PreOrder (trace_grows P).
Proof.
  split.
  - intros w. exists []. by rewrite app_nil_r.
  - intros w1 w2 w3 (tr1 & H1 & F1) (tr2 & H2 & F2).
    exists (tr1 ++ tr2)%list. rewrite H2, H1, app_assoc.
    split; [done | by apply Forall_app].
Qed.

Lemma gen_calls_app tr1 tr2 :
  gen_calls (tr1 ++ tr2) = (gen_calls tr1 ++ gen_calls tr2)%list.
Proof. apply omap_app. Qed.

Lemma gen_calls_subprocess tr : Forall is_subprocess tr -> gen_calls tr = [].
Proof.
  induction 1 as [|e tr He _ IH]; [done|].
  destruct e; simpl in *; done.
Qed.

Lemma new_trace_app w w' tr :
  w_trace w' = (w_trace w ++ tr)%list -> new_trace w w' = tr.
Proof. unfold new_trace. intros ->. by rewrite drop_app_length. Qed.

Lemma elapse_trace P : preserves (trace_grows P) (elapse E).
Proof. apply preserves_modify. intros w. by exists []; rewrite app_nil_r. Qed.

Lemma time_sleep_trace P d : preserves (trace_grows P) (time_sleep E d).
Proof.
  apply preserves_bind; [apply _ | | intros _; apply elapse_trace].
  apply preserves_modify. intros w. by exists []; rewrite app_nil_r.
Qed.

Lemma time_sleep_run d w :
  exists w', time_sleep E d w = (Ok tt, w') /\ w_trace w' = w_trace w.
Proof. by eexists. Qed.

Lemma generate_email_body_trace profile_id label :
  preserves (trace_grows is_subprocess)
    (generate_email_body E profile_id label).
Proof.
  unfold generate_email_body, load_session, write_cookie_file,
    subprocess_run, remove_cookie_file.
  repeat first
    [ apply preserves_ret | apply preserves_raise | apply preserves_gets
    | apply preserves_bind | apply preserves_try_finally
    | apply preserves_try_except | apply elapse_trace
    | apply trace_grows_preorder
    | match goal with |- forall _, _ => intros ? end
    | case_match
    | apply preserves_modify; intros w; unfold trace_grows; simpl;
      first [ by exists []; rewrite app_nil_r
            | by eexists [_]; split; [|repeat constructor] ] ].
Qed.

(** A call reports success only together with a non-empty address. *)
Lemma generate_email_body_success profile_id label w email w' :
  generate_email_body E profile_id label w = (Ok (true, email), w') ->
  truthy_email email = true.
Proof.
  unfold generate_email_body, load_session, try_finally, try_except, bind,
    gets, ret, raise. simpl.
  intros H. repeat case_match; simplify_eq; done.
Qed.

Lemma generate_email_trace profile_id label w r w' :
  generate_email E profile_id label w = (r, w') ->
  exists tr, w_trace w' = (w_trace w ++ tr)%list
             /\ gen_calls tr = [mkCall profile_id label r]
             /\ call_ok (mkCall profile_id label r).
Proof.
  unfold generate_email.
  destruct (generate_email_body E profile_id label w) as [r1 w1] eqn:Hb.
  intros [= <- <-].
  pose proof Hb as Hok.
  apply generate_email_body_trace in Hb as (tr & Htr & Hsub).
  exists (tr ++ [EvGenerateEmail profile_id label r1])%list. simpl.
  rewrite Htr, app_assoc, gen_calls_app, (gen_calls_subprocess _ Hsub).
  split_and!; [done..|].
  unfold call_ok, succeeded, generated. simpl.
  destruct r1 as [[[] email]|]; try done. intros _.
  apply generate_email_body_success in Hok.
  destruct email as [e|]; [|done]. simpl in Hok. rewrite Hok. by eexists.
Qed.

Lemma generate_batch_call_spec p n label_prefix i res w res' w' :
  generate_batch_call E p n label_prefix i res w = (Ok res', w') ->
  exists tr c,
    w_trace w' = (w_trace w ++ tr)%list
    /\ gen_calls tr = [c]
    /\ call_profile c = p
    /\ call_label c = Some (make_label label_prefix (w_clock w) i)
    /\ call_ok c
    /\ res' = match generated c with
              | Some e => alter (fun l => (l ++ [e])%list) p res
              | None => res
              end.
Proof.
  unfold generate_batch_call. intros H.
  apply bind_ok in H as (now & w0 & [= <- <-] & H).
  apply bind_ok in H as ([success email] & w1 & Hg & H).
  apply bind_ok in H as ([] & w2 & Hs & [= <- <-]).
  assert (w_trace w2 = w_trace w1) as Hw2.
  { destruct (i <? n - 1)%Z.
    - destruct (time_sleep_run 2 w1) as (w3 & Hr & Ht). congruence.
    - by injection Hs as <-. }
  apply generate_email_trace in Hg as (tr & Htr & Hc & Hok).
  exists tr, (mkCall p (Some (make_label label_prefix (w_clock w) i))
                     (Ok (success, email))).
  rewrite Hw2. split_and!; try done.
  unfold generated. simpl.
  destruct success, email as [e|]; simpl; try done.
  by destruct (truthy_str e).
Qed.

Lemma batch_calls_fold p n label_prefix (indices : list Z) :
  forall res w res' w' l0,
    for_fold indices (generate_batch_call E p n label_prefix) res w
    = (Ok res', w') ->
    res !! p = Some l0 ->
    exists tr,
      w_trace w' = (w_trace w ++ tr)%list
      /\ Forall2 (call_of_pass label_prefix p) indices (gen_calls tr)
      /\ res' = <[p := (l0 ++ emails_of (gen_calls tr))%list]> res.
Proof.
  induction indices as [|i indices IH]; intros res w res' w' l0 H Hp.
  - injection H as <- <-. exists []. rewrite !app_nil_r.
    split_and!; [done | constructor | by rewrite insert_id].
  - simpl in H. apply bind_ok in H as (r1 & w1 & Hcall & H).
    apply generate_batch_call_spec in Hcall
      as (tr1 & c & Htr1 & Hc & Hprof & Hlab & Hok & Hr1).
    assert (r1 !! p = Some (l0 ++ emails_of [c])%list) as Hp1.
    { rewrite Hr1. unfold emails_of. simpl. destruct (generated c).
      - by rewrite lookup_alter_eq, Hp.
      - by rewrite app_nil_r. }
    destruct (IH _ _ _ _ _ H Hp1) as (tr2 & Htr2 & Hall & Hres).
    exists (tr1 ++ tr2)%list. rewrite Htr2, Htr1, app_assoc.
    rewrite gen_calls_app, Hc. split_and!; [done| |].
    + constructor; [|done]. split_and!; eauto.
    + rewrite Hres, Hr1. unfold emails_of. simpl.
      destruct (generated c); simpl.
      * by rewrite insert_alter_eq, <-app_assoc.
      * by rewrite app_nil_r.
Qed.

Lemma generate_batch_profile_spec n label_prefix p res w res' w' :
  generate_batch_profile E n label_prefix p res w = (Ok res', w') ->
  exists tr,
    w_trace w' = (w_trace w ++ tr)%list
    /\ Forall2 (call_of_pass label_prefix p) (seqZ 0 n) (gen_calls tr)
    /\ res' = <[p := emails_of (gen_calls tr)]> res.
Proof.
  unfold generate_batch_profile. intros H.
  eapply batch_calls_fold in H as (tr & Htr & Hall & ->);
    [|apply lookup_insert_eq].
  exists tr. by rewrite insert_insert_eq.
Qed.

Lemma call_of_pass_profiles label_prefix p indices cs :
  Forall2 (call_of_pass label_prefix p) indices cs ->
  map call_profile cs = replicate (length indices) p /\ Forall call_ok cs.
Proof.
  induction 1 as [|i c indices cs (Hp & _ & Hok) _ [IH1 IH2]]; simpl.
  - by split.
  - rewrite Hp, IH1. split; [done | by constructor].
Qed.

Lemma generate_batch_fold n label_prefix ids :
  forall res w res' w',
    for_fold ids (generate_batch_profile E n label_prefix) res w
    = (Ok res', w') ->
    exists tr,
      w_trace w' = (w_trace w ++ tr)%list
      /\ map call_profile (gen_calls tr) = ids ≫= replicate (Z.to_nat n)
      /\ Forall call_ok (gen_calls tr)
      /\ (forall i, i ∉ ids -> res' !! i = res !! i).
Proof.
  induction ids as [|p ids IH]; intros res w res' w' H.
  - injection H as <- <-. exists []. by rewrite app_nil_r.
  - simpl in H. apply bind_ok in H as (r1 & w1 & Hp & H).
    apply generate_batch_profile_spec in Hp as (tr1 & Htr1 & Hall & ->).
    apply IH in H as (tr2 & Htr2 & Hprof & Hok & Hother).
    apply call_of_pass_profiles in Hall as [Hprof1 Hok1].
    rewrite length_seqZ in Hprof1.
    exists (tr1 ++ tr2)%list. rewrite Htr2, Htr1, app_assoc, gen_calls_app.
    split_and!; [done| | |].
    + by rewrite map_app, Hprof1, Hprof.
    + by apply Forall_app.
    + intros i [Hne Hi]%not_elem_of_cons.
      by rewrite Hother, lookup_insert_ne.
Qed.

Lemma calls_for_app i cs1 cs2 :
  calls_for i (cs1 ++ cs2) = (calls_for i cs1 ++ calls_for i cs2)%list.
Proof. apply filter_app. Qed.

Lemma calls_for_other i cs :
  i ∉ map call_profile cs -> calls_for i cs = [].
Proof.
  induction cs as [|c cs IH]; [done|]. simpl.
  intros [Hne Hi]%not_elem_of_cons. unfold calls_for in *.
  rewrite filter_cons_False by done. auto.
Qed.

Lemma calls_for_same i cs :
  map call_profile cs = replicate (length cs) i -> calls_for i cs = cs.
Proof.
  induction cs as [|c cs IH]; [done|]. simpl. intros [= Hc Hcs].
  unfold calls_for in *. rewrite filter_cons_True by done. f_equal. auto.
Qed.

Lemma passes_not_elem_of i (ids : list string) k :
  i ∉ ids -> i ∉ ids ≫= replicate k.
Proof.
  intros Hi (p & Hp%elem_of_replicate & Hin)%list_elem_of_bind.
  destruct Hp as [-> _]. done.
Qed.


Lemma emails_of_le cs : length (emails_of cs) <= length cs.
Proof.
  induction cs as [|c cs IH]; [done|]. unfold emails_of in *. simpl.
  destruct (generated c); simpl; [apply le_n_S | apply Nat.le_le_succ_r];
    apply IH.
Qed.

(** The run of a batch over [ids1 ++ p :: ids2], cut at the pass over [p]. *)
Lemma generate_batch_split ids1 p ids2 n label_prefix w res w' :
  generate_batch E (ids1 ++ p :: ids2) n label_prefix w = (Ok res, w') ->
  exists res1 w1 tr2 tr3,
    generate_batch E ids1 n label_prefix w = (Ok res1, w1)
    /\ w_trace w' = (w_trace w1 ++ tr2 ++ tr3)%list
    /\ Forall2 (call_of_pass label_prefix p) (seqZ 0 n) (gen_calls tr2)
    /\ map call_profile (gen_calls tr3) = ids2 ≫= replicate (Z.to_nat n)
    /\ (p ∉ ids2 -> res !! p = Some (emails_of (gen_calls tr2))).
Proof.
  unfold generate_batch. rewrite for_fold_app. intros H.
  apply bind_ok in H as (res1 & w1 & H1 & H). simpl in H.
  apply bind_ok in H as (res2 & w2 & H2 & H3).
  apply generate_batch_profile_spec in H2 as (tr2 & Htr2 & Hall & ->).
  apply generate_batch_fold in H3 as (tr3 & Htr3 & Hprof & _ & Hother).
  exists res1, w1, tr2, tr3. rewrite Htr3, Htr2, app_assoc.
  split_and!; try done.
  intros Hp. by rewrite Hother, lookup_insert_eq.
Qed.

(** *** The calls of a batch that raises *)

Lemma generate_batch_call_any p n label_prefix i res w r w' :
  generate_batch_call E p n label_prefix i res w = (r, w') ->
  exists tr c,
    w_trace w' = (w_trace w ++ tr)%list
    /\ gen_calls tr = [c] /\ call_profile c = p.
Proof.
  unfold generate_batch_call. intros H.
  apply bind_inv in H as [(now & w0 & [= <- <-] & H)|(e & [=] & _)].
  apply bind_inv in H as [([success email] & w1 & Hg & H)|(e & Hg & _)].
  - apply generate_email_trace in Hg as (tr & Htr & Hc & _).
    exists tr, (mkCall p (Some (make_label label_prefix (w_clock w) i))
                       (Ok (success, email))).
    split_and!; [|done..].
    assert (exists w2, (if (i <? n - 1)%Z then time_sleep E 2 else ret tt) w1
                       = (Ok tt, w2) /\ w_trace w2 = w_trace w1)
      as (w2 & Hs & Hw2).
    { destruct (i <? n - 1)%Z; [apply time_sleep_run | by eexists]. }
    rewrite (bind_run _ _ _ _ _ Hs) in H. injection H as _ <-. congruence.
  - apply generate_email_trace in Hg as (tr & Htr & Hc & _).
    by eexists tr, _.
Qed.

Lemma batch_calls_fold_any p n label_prefix (indices : list Z) :
  forall res w r w',
    for_fold indices (generate_batch_call E p n label_prefix) res w
    = (r, w') ->
    exists tr k,
      w_trace w' = (w_trace w ++ tr)%list
      /\ k <= length indices
      /\ map call_profile (gen_calls tr) = replicate k p.
Proof.
  induction indices as [|i indices IH]; intros res w r w' H.
  - injection H as <- <-. exists [], 0. by rewrite app_nil_r.
  - simpl in H. apply bind_inv in H as [(r1 & w1 & Hc & H)|(e & Hc & _)].
    + apply generate_batch_call_any in Hc as (tr1 & c & Htr1 & Hc & Hp).
      apply IH in H as (tr2 & k & Htr2 & Hk & Hprof).
      exists (tr1 ++ tr2)%list, (S k). rewrite Htr2, Htr1, app_assoc.
      rewrite gen_calls_app, Hc. simpl. rewrite Hp, Hprof.
      split_and!; [done | lia | done].
    + apply generate_batch_call_any in Hc as (tr1 & c & Htr1 & Hc & Hp).
      exists tr1, 1. rewrite Hc. simpl. rewrite Hp.
      split_and!; [done | lia | done].
Qed.



(** *** A batch over usable session files returns *)

#[local] Instance same_sessions_preorder : PreOrder same_sessions.
Proof.
  split; [done|]. intros w1 w2 w3. unfold same_sessions. congruence.
Qed.

Lemma generate_email_sessions profile_id label :
  preserves same_sessions (generate_email E profile_id label).
Proof.
  intros w r w'. unfold generate_email.
  destruct (generate_email_body E profile_id label w) as [r1 w1] eqn:Hb.
  intros [= _ <-]. revert w r1 w1 Hb.
  change (preserves same_sessions (generate_email_body E profile_id label)).
  unfold generate_email_body, load_session, write_cookie_file,
    subprocess_run, remove_cookie_file, elapse.
  repeat first
    [ apply preserves_ret | apply preserves_raise | apply preserves_gets
    | apply preserves_bind | apply preserves_try_finally
    | apply preserves_try_except
    | apply same_sessions_preorder
    | match goal with |- forall _, _ => intros ? end
    | case_match
    | apply preserves_modify; intros w; reflexivity ].
Qed.

Lemma load_session_run profile_id w :
  load_session profile_id w
  = match w_sessions w !! session_path profile_id with
    | Some NoAccess => (Raise PermissionError, w)
    | Some (IsJson j) => (Ok (Some j), w)
    | _ => (Ok None, w)
    end.
Proof.
  unfold load_session, bind, gets. simpl.
  by destruct (w_sessions w !! session_path profile_id) as [[| |j]|].
Qed.

Lemma generate_email_returns profile_id label w :
  unlink_works E ->
  session_usable (w_sessions w !! session_path profile_id) ->
  exists r w', generate_email E profile_id label w = (Ok r, w').
Proof.
  intros Hunlink Hfile. unfold generate_email.
  assert (exists r w', generate_email_body E profile_id label w = (Ok r, w'))
    as (r & w' & ->); [|by eexists _, _].
  unfold generate_email_body, bind at 1. rewrite load_session_run.
  destruct (w_sessions w !! session_path profile_id) as [f|];
    [|by eexists _, _].
  destruct f as [| |j]; [done | by eexists _, _ |].
  destruct j as [s|b]; [|destruct b; [done | by eexists _, _]].
  destruct (negb (truthy_json (JsonDict s))); [by eexists _, _|].
  destruct (negb (truthy_cookies _)); [by eexists _, _|].
  unfold try_finally.
  match goal with |- context [try_except ?m ?h w] =>
    destruct (try_except m h w) as [r1 w1] eqn:Htry end.
  assert (exists a, r1 = Ok a) as [a ->].
  { revert Htry. unfold try_except.
    match goal with
    | |- context [match ?x with _ => _ end] => destruct x as [[?|?] ?]
    end; intros [= <- _]; by eexists. }
  unfold remove_cookie_file, bind, gets. simpl.
  destruct (bool_decide _); [|by eexists _, _].
  rewrite Hunlink. by eexists _, _.
Qed.

Lemma generate_batch_call_returns p n label_prefix i res w :
  unlink_works E ->
  session_usable (w_sessions w !! session_path p) ->
  exists res' w',
    generate_batch_call E p n label_prefix i res w = (Ok res', w')
    /\ same_sessions w w'.
Proof.
  intros Hunlink Hfile. unfold generate_batch_call, bind at 1, time_time, gets.
  simpl.
  destruct (generate_email_returns p
              (Some (make_label label_prefix (w_clock w) i)) w Hunlink Hfile)
    as ([success email] & w1 & Hg).
  pose proof (generate_email_sessions _ _ _ _ _ Hg) as Hs.
  rewrite (bind_run _ _ _ _ _ Hg).
  destruct (i <? n - 1)%Z; by eexists _, _.
Qed.

Lemma generate_batch_returns ids n label_prefix w :
  unlink_works E ->
  (forall p, p ∈ ids -> session_usable (w_sessions w !! session_path p)) ->
  exists res w', generate_batch E ids n label_prefix w = (Ok res, w').
Proof.
  intros Hunlink. unfold generate_batch.
  generalize (∅ : gmap string (list string)).
  revert w. induction ids as [|p ids IH]; intros w res Hfiles.
  - by eexists _, _.
  - simpl.
    assert (exists res1 w1,
              generate_batch_profile E n label_prefix p res w = (Ok res1, w1)
              /\ same_sessions w w1) as (res1 & w1 & Hp & Hs).
    { unfold generate_batch_profile.
      assert (session_usable (w_sessions w !! session_path p)) as Hfile
        by (apply Hfiles; left).
      generalize (<[p:=[]]> res). revert Hfile. clear IH Hfiles. revert w.
      induction (seqZ 0 n) as [|i indices IHi]; intros w Hfile r.
      - by eexists _, _.
      - simpl.
        destruct (generate_batch_call_returns p n label_prefix i r w
                    Hunlink Hfile) as (r1 & w1 & Hc & Hs1).
        rewrite (bind_run _ _ _ _ _ Hc).
        assert (session_usable (w_sessions w1 !! session_path p)) as Hfile1
          by (unfold same_sessions in Hs1; by rewrite Hs1).
        destruct (IHi w1 Hfile1 r1) as (r2 & w2 & H2 & Hs2).
        exists r2, w2. split; [done | by etransitivity]. }
    rewrite (bind_run _ _ _ _ _ Hp). apply IH.
    intros q Hq. unfold same_sessions in Hs. rewrite Hs. apply Hfiles. by right.
Qed.

(** In a batch over distinct profiles, the calls for a profile are the
    calls of its one pass, and its result list holds their addresses. *)
Lemma generate_batch_once ids n label_prefix w res w' p :
  NoDup ids -> p ∈ ids ->
  generate_batch E ids n label_prefix w = (Ok res, w') ->
  exists cs,
    calls_for p (gen_calls (new_trace w w')) = cs
    /\ Forall2 (call_of_pass label_prefix p) (seqZ 0 n) cs
    /\ res !! p = Some (emails_of cs).
Proof.
  intros Hnd (ids1 & ids2 & ->)%list_elem_of_split H.
  apply NoDup_app in Hnd as (_ & Hp1 & [Hp2 _]%NoDup_cons).
  assert (p ∉ ids1) as Hp1' by (intros ?; eapply Hp1; [done | left]).
  apply generate_batch_split in H
    as (res1 & w1 & tr2 & tr3 & H1 & Htr & Hall & Hprof3 & Hres).
  apply generate_batch_fold in H1 as (tr1 & Htr1 & Hprof1 & _ & _).
  exists (gen_calls tr2). split_and!; [|done|by apply Hres].
  rewrite Htr1, <-app_assoc in Htr. rewrite (new_trace_app _ _ _ Htr).
  rewrite !gen_calls_app, !calls_for_app.
  rewrite (calls_for_other p (gen_calls tr1)),
    (calls_for_other p (gen_calls tr3)).
  - rewrite app_nil_r. simpl. apply calls_for_same.
    pose proof (Forall2_length _ _ _ Hall) as Hlen.
    apply call_of_pass_profiles in Hall as [Hprof _].
    by rewrite Hprof, Hlen.
  - rewrite Hprof3. by apply passes_not_elem_of.
  - rewrite Hprof1. by apply passes_not_elem_of.
Qed.


(** C3, as the code has it. A batch that returns has made exactly [n]
    calls ([0] for a negative [n]) for each profile of the list, in the
    order of the list, whatever the calls returned: a failed call neither
    ends the pass over its profile nor the batch. *)
Theorem generate_batch_calls_all ids n label_prefix w res w' :
  generate_batch E ids n label_prefix w = (Ok res, w') ->
  map call_profile (gen_calls (new_trace w w'))
  = ids ≫= replicate (Z.to_nat n).
Proof.
  intros H. apply generate_batch_fold in H as (tr & Htr & Hprof & _).
  by rewrite (new_trace_app _ _ _ Htr).
Qed.

(** C9. When a profile is listed again after [ids1], the entry returned
    for it holds the addresses of the calls of that last pass only:
    whatever the batch had collected for it over [ids1] is dropped. *)
Theorem generate_batch_last_pass ids1 p ids2 n label_prefix w res w' :
  p ∉ ids2 ->
  generate_batch E (ids1 ++ p :: ids2) n label_prefix w = (Ok res, w') ->
  exists res1 w1,
    generate_batch E ids1 n label_prefix w = (Ok res1, w1)
    /\ res !! p
       = Some (emails_of (calls_for p (gen_calls (new_trace w1 w')))).
Proof.
  intros Hp H.
  apply generate_batch_split in H
    as (res1 & w1 & tr2 & tr3 & H1 & Htr & Hall & Hprof3 & Hres).
  exists res1, w1. split; [done|].
  rewrite (new_trace_app _ _ _ Htr), gen_calls_app, calls_for_app.
  rewrite (calls_for_other p (gen_calls tr3)).
  - rewrite app_nil_r, calls_for_same; [by apply Hres|].
    pose proof (Forall2_length _ _ _ Hall) as Hlen.
    apply call_of_pass_profiles in Hall as [Hprof _].
    by rewrite Hprof, Hlen.
  - rewrite Hprof3. by apply passes_not_elem_of.
Qed.

(** Labels: the decimal numerals hold no underscore, so the underscore of
    a label separates its time from its index. *)
Lemma pretty_N_go_no_underscore x s :
  ~ has_char "_" s -> ~ has_char "_" (pretty_N_go x s).
Proof.
  revert s. induction (N.lt_wf_0 x) as [x _ IH]; intros s Hs.
  assert (x = 0 \/ 0 < x)%N as [->|Hx] by lia.
  - by rewrite pretty_N_go_0.
  - rewrite pretty_N_go_step by done. apply IH; [by apply N.div_lt|].
    simpl. intros [Hc|Hc]; [|done].
    unfold pretty_N_char in Hc. repeat case_match; discriminate.
Qed.

Lemma pretty_N_no_underscore (x : N) : ~ has_char "_" (pretty x).
Proof.
  unfold pretty, pretty_N. case_decide.
  - simpl. intros [|[]]. discriminate.
  - apply pretty_N_go_no_underscore. simpl. tauto.
Qed.

Lemma pretty_Z_no_underscore (x : Z) : ~ has_char "_" (pretty x).
Proof.
  destruct x as [|x|x]; unfold pretty, pretty_Z.
  - simpl. intros [|[]]. discriminate.
  - apply (pretty_N_no_underscore (N.pos x)).
  - simpl. intros [|H]; [discriminate|].
    by apply (pretty_N_no_underscore (N.pos x)).
Qed.

Lemma underscore_split s1 s2 r1 r2 :
  ~ has_char "_" s1 -> ~ has_char "_" s2 ->
  s1 +:+ String "_" r1 = s2 +:+ String "_" r2 -> s1 = s2 /\ r1 = r2.
Proof.
  revert s2. induction s1 as [|a s1 IH]; intros [|b s2]; simpl; intros H1 H2 H.
  - by injection H.
  - injection H as <- _. tauto.
  - injection H as -> _. tauto.
  - injection H as -> H. destruct (IH s2) as [-> ->]; tauto.
Qed.

Lemma make_label_inj label_prefix t1 i1 t2 i2 :
  make_label label_prefix t1 i1 = make_label label_prefix t2 i2 ->
  int_of t1 = int_of t2 /\ i1 = i2.
Proof.
  unfold make_label. intros H%(inj (String.app label_prefix)).
  apply underscore_split in H as [H1%(inj pretty) H2%(inj pretty)];
    auto using pretty_Z_no_underscore.
Qed.

Lemma labels_by_index {A} (P : Z -> A -> Prop) (label : A -> option string)
    label_prefix indices cs :
  (forall i c, P i c ->
     exists t, label c = Some (make_label label_prefix t i)) ->
  Forall2 P indices cs ->
  NoDup indices -> NoDup (map label cs).
Proof.
  intros HP. induction 1 as [|i c indices cs Hc Hall IH]; simpl;
    intros Hnd; [constructor|].
  apply NoDup_cons in Hnd as [Hi Hnd]. apply NoDup_cons. split; [|auto].
  intros (c' & Hc' & Hin)%list_elem_of_fmap.
  apply list_elem_of_lookup in Hin as [k Hk].
  destruct (Forall2_lookup_r _ _ _ _ _ Hall Hk) as (i' & Hi' & Hc'').
  destruct (HP _ _ Hc) as [t Hl]. destruct (HP _ _ Hc'') as [t' Hl'].
  rewrite Hl, Hl' in Hc'. injection Hc' as [_ ->]%make_label_inj.
  apply Hi. by eapply list_elem_of_lookup_2.
Qed.

Lemma call_of_pass_labels label_prefix p indices cs :
  Forall2 (call_of_pass label_prefix p) indices cs ->
  NoDup indices -> NoDup (map call_label cs).
Proof.
  apply (labels_by_index _ _ label_prefix). by intros i c (_ & Ht & _).
Qed.

(** *** Labels and the clock *)

Lemma Qc_le_plus_r (x d : Qc) : (0 ≤ d)%Qc -> (x ≤ x + d)%Qc.
Proof.
  intros H. rewrite <-(Qcplus_0_r x) at 1. by apply Qcplus_le_mono_l.
Qed.

(** Times two seconds apart are cut to different integers. *)
Lemma int_of_lt (x y : Qc) :
  (x + Qc_of_Z 2 ≤ y)%Qc -> (int_of x < int_of y)%Z.
Proof.
  unfold Qcle, int_of. simpl. rewrite Qred_correct.
  unfold Qle, Qplus, inject_Z. simpl.
  destruct x as [[a b] Hx], y as [[c d] Hy]. simpl. clear Hx Hy.
  pose proof (Z.quot_rem' a (Z.pos b)) as Ha.
  pose proof (Z.quot_rem' c (Z.pos d)) as Hc.
  assert (Z.pos b ≠ 0)%Z as Hb by lia. assert (Z.pos d ≠ 0)%Z as Hd by lia.
  pose proof (Z.rem_bound_abs a (Z.pos b) Hb) as Hra.
  pose proof (Z.rem_bound_abs c (Z.pos d) Hd) as Hrc.
  rewrite Pos2Z.inj_mul.
  generalize dependent (Z.rem a (Z.pos b)).
  generalize dependent (Z.rem c (Z.pos d)).
  generalize dependent (a ÷ Z.pos b)%Z. generalize dependent (c ÷ Z.pos d)%Z.
  intros qc qa rc Hc Hrc ra Ha Hra H.
  assert (0 < Z.pos b)%Z by lia. assert (0 < Z.pos d)%Z by lia.
  generalize dependent (Z.pos b). generalize dependent (Z.pos d).
  intros. subst a c. nia.
Qed.

Section Timing.

Hypothesis clock_ok : clock_monotone E.

#[local] Instance clock_le_preorder : PreOrder clock_le.
Proof.
  split.
  - intros w. apply Qcle_refl.
  - intros w1 w2 w3. apply Qcle_trans.
Qed.

Lemma elapse_clock : preserves clock_le (elapse E).
Proof.
  apply preserves_modify. intros w. unfold clock_le. simpl.
  apply Qc_le_plus_r, clock_ok.
Qed.

Lemma generate_email_body_clock profile_id label :
  preserves clock_le (generate_email_body E profile_id label).
Proof.
  unfold generate_email_body, load_session, write_cookie_file,
    subprocess_run, remove_cookie_file.
  repeat first
    [ apply preserves_ret | apply preserves_raise | apply preserves_gets
    | apply preserves_bind | apply preserves_try_finally
    | apply preserves_try_except | apply elapse_clock
    | apply clock_le_preorder
    | match goal with |- forall _, _ => intros ? end
    | case_match
    | apply preserves_modify; intros w; apply Qcle_refl ].
Qed.

Lemma generate_email_clock profile_id label :
  preserves clock_le (generate_email E profile_id label).
Proof.
  intros w r w'. unfold generate_email.
  destruct (generate_email_body E profile_id label w) as [r1 w1] eqn:Hb.
  intros [= _ <-]. apply (generate_email_body_clock _ _ _ _ _ Hb).
Qed.

Lemma generate_batch_call_clock p n label_prefix i res w res' w' :
  generate_batch_call E p n label_prefix i res w = (Ok res', w') ->
  clock_le w w'
  /\ ((i < n - 1)%Z -> (w_clock w + Qc_of_Z 2 ≤ w_clock w')%Qc).
Proof.
  unfold generate_batch_call. intros H.
  apply bind_ok in H as (now & w0 & [= <- <-] & H).
  apply bind_ok in H as ([success email] & w1 & Hg & H).
  apply bind_ok in H as ([] & w2 & Hs & [= <- <-]).
  apply generate_email_clock in Hg. unfold clock_le in *.
  destruct (i <? n - 1)%Z eqn:Hi.
  - injection Hs as <-. simpl.
    assert (w_clock w + Qc_of_Z 2 ≤ w_clock w1 + Qc_of_Z 2 + env_elapsed E
              (set_clock (w_clock w1 + Qc_of_Z 2) w1))%Qc as Hle.
    { etransitivity; [|apply Qc_le_plus_r, clock_ok].
      by apply Qcplus_le_mono_r. }
    split; [|done]. etransitivity; [|exact Hle]. by apply Qc_le_plus_r.
  - injection Hs as <-. split; [done|]. apply Z.ltb_ge in Hi. lia.
Qed.

Lemma batch_calls_fold_timed p n label_prefix (len : nat) :
  forall k res w res' w',
    (k + Z.of_nat len <= n)%Z ->
    for_fold (seqZ k (Z.of_nat len)) (generate_batch_call E p n label_prefix)
      res w = (Ok res', w') ->
    clock_le w w'
    /\ exists tr,
         w_trace w' = (w_trace w ++ tr)%list
         /\ Forall2 (timed_call label_prefix n (w_clock w) (w_clock w') k)
                    (seqZ k (Z.of_nat len)) (gen_calls tr).
Proof.
  induction len as [|len IH]; intros k res w res' w' Hk H.
  - injection H as <- <-. split; [reflexivity|].
    exists []. rewrite app_nil_r. split; [done | constructor].
  - rewrite seqZ_cons in H by lia.
    rewrite Nat2Z.inj_succ, Z.pred_succ in H. simpl in H.
    apply bind_ok in H as (r1 & w1 & Hcall & H).
    pose proof (generate_batch_call_clock _ _ _ _ _ _ _ _ Hcall)
      as [Hle1 Hsleep].
    apply generate_batch_call_spec in Hcall
      as (tr1 & c & Htr1 & Hc & _ & Hlab & _ & _).
    apply IH in H as (Hle2 & tr2 & Htr2 & Hall); [|lia].
    unfold clock_le in *.
    split; [by etransitivity|].
    exists (tr1 ++ tr2)%list. rewrite Htr2, Htr1, app_assoc.
    split; [done|]. rewrite gen_calls_app, Hc.
    rewrite seqZ_cons by lia. rewrite Nat2Z.inj_succ, Z.pred_succ. simpl.
    constructor.
    + exists (w_clock w).
      split_and!; [done | reflexivity | by etransitivity | | lia].
      intros Hlt. etransitivity; [by apply Hsleep | done].
    + destruct len as [|len].
      { simpl in Hall. apply Forall2_nil_inv_l in Hall as ->. constructor. }
      assert (w_clock w + Qc_of_Z 2 ≤ w_clock w1)%Qc as Hgap
        by (apply Hsleep; lia).
      eapply Forall2_impl; [exact Hall|].
      intros i c' (t & Hl & Ht1 & Ht2 & Hend & Hstart).
      exists t. split_and!; [done | by etransitivity | done | done |].
      intros _. by etransitivity.
Qed.

Lemma generate_batch_profile_timed n label_prefix p res w res' w' :
  generate_batch_profile E n label_prefix p res w = (Ok res', w') ->
  clock_le w w'
  /\ exists tr,
       w_trace w' = (w_trace w ++ tr)%list
       /\ Forall2 (timed_call label_prefix n (w_clock w) (w_clock w') 0)
                  (seqZ 0 n) (gen_calls tr).
Proof.
  unfold generate_batch_profile. intros H.
  destruct (decide (0 <= n)%Z) as [Hn|Hn].
  - remember (Z.to_nat n) as m eqn:Hm.
    assert (n = Z.of_nat m) as -> by lia.
    eapply batch_calls_fold_timed; [|done]. lia.
  - rewrite seqZ_nil in H |- * by lia. injection H as <- <-.
    split; [reflexivity|]. exists []. rewrite app_nil_r.
    split; [done | constructor].
Qed.

Lemma timed_calls_past label_prefix n T T' cs :
  Forall2 (timed_call label_prefix n T T' 0) (seqZ 0 n) cs ->
  Forall (past_call label_prefix n T') cs.
Proof.
  intros Hall. apply Forall_lookup_2. intros j c Hj.
  destruct (Forall2_lookup_r _ _ _ _ _ Hall Hj)
    as (i & Hi & t & Hl & _ & Ht & Hend & _).
  apply list_elem_of_lookup_2, elem_of_seqZ in Hi.
  exists t, i. split; [done|]. split; [lia|]. by split.
Qed.

Lemma past_call_later label_prefix n T T' c :
  (T ≤ T')%Qc ->
  past_call label_prefix n T c -> past_call label_prefix n T' c.
Proof.
  intros Hle (t & i & Hl & Hi & Ht & Hend).
  exists t, i. split; [done|]. split; [done|]. split; [by etransitivity|].
  intros Hlt. etransitivity; [by apply Hend | done].
Qed.

(** A call of an earlier pass and a call of a later pass never share a
    label when the quota is two or more: with equal indices, one of the
    two-second delays lies between them. *)
Lemma past_call_label_fresh label_prefix n T T' i c c' :
  (2 <= n)%Z -> (0 <= i < n)%Z ->
  past_call label_prefix n T c ->
  timed_call label_prefix n T T' 0 i c' ->
  call_label c ≠ call_label c'.
Proof.
  intros Hn Hi (t & j & Hl & Hj & Ht & Hend) (t' & Hl' & Ht' & _ & _ & Hstart).
  rewrite Hl, Hl'. intros [= [Hint ->]%make_label_inj].
  assert (t + Qc_of_Z 2 ≤ t')%Qc as Hgap.
  { destruct (decide (i < n - 1)%Z) as [Hlt|Hge].
    - etransitivity; [by apply Hend | done].
    - etransitivity; [|apply Hstart; lia]. by apply Qcplus_le_mono_r. }
  apply int_of_lt in Hgap. lia.
Qed.

Lemma generate_batch_fold_timed n label_prefix ids :
  (2 <= n)%Z ->
  forall res w res' w' old,
    for_fold ids (generate_batch_profile E n label_prefix) res w
    = (Ok res', w') ->
    Forall (past_call label_prefix n (w_clock w)) old ->
    NoDup (map call_label old) ->
    exists tr,
      w_trace w' = (w_trace w ++ tr)%list
      /\ Forall (past_call label_prefix n (w_clock w')) (old ++ gen_calls tr)
      /\ NoDup (map call_label (old ++ gen_calls tr)).
Proof.
  intros Hn. induction ids as [|p ids IH]; intros res w res' w' old H Hold Hnd.
  - injection H as <- <-. exists []. by rewrite !app_nil_r.
  - simpl in H. apply bind_ok in H as (r1 & w1 & Hp & H).
    apply generate_batch_profile_timed in Hp as (Hle & tr1 & Htr1 & Hall).
    apply (IH _ _ _ _ (old ++ gen_calls tr1)%list) in H
      as (tr2 & Htr2 & Hpast & Hnd2).
    + exists (tr1 ++ tr2)%list.
      rewrite Htr2, Htr1, app_assoc, gen_calls_app, app_assoc. done.
    + apply Forall_app. split.
      * eapply Forall_impl; [exact Hold|]. intros c. by apply past_call_later.
      * by eapply timed_calls_past.
    + rewrite map_app. apply NoDup_app. split_and!; [done| |].
      * intros l (c & -> & Hc)%list_elem_of_fmap
          (c' & Heq & Hc')%list_elem_of_fmap.
        apply list_elem_of_lookup in Hc' as [j Hj].
        destruct (Forall2_lookup_r _ _ _ _ _ Hall Hj) as (i & Hi & Htimed).
        apply list_elem_of_lookup_2, elem_of_seqZ in Hi.
        eapply past_call_label_fresh; [exact Hn | | | exact Htimed | exact Heq].
        -- lia.
        -- eapply Forall_forall in Hold; [exact Hold | done].
      * eapply (labels_by_index _ _ label_prefix);
          [|exact Hall|apply NoDup_seqZ].
        intros i c (t & Hl & _). eauto.
Qed.

(** The calls of a pass that are followed by a delay take two seconds
    each, at least. *)
Lemma batch_calls_fold_duration p n label_prefix (len : nat) :
  forall k res w res' w',
    (k + Z.of_nat len <= n - 1)%Z ->
    for_fold (seqZ k (Z.of_nat len)) (generate_batch_call E p n label_prefix)
      res w = (Ok res', w') ->
    (w_clock w + Qc_of_Z (2 * Z.of_nat len) ≤ w_clock w')%Qc.
Proof.
  induction len as [|len IH]; intros k res w res' w' Hk H.
  - injection H as <- <-. change (2 * Z.of_nat 0)%Z with 0%Z.
    rewrite Z2Qc_inj_0, Qcplus_0_r. reflexivity.
  - rewrite seqZ_cons in H by lia.
    rewrite Nat2Z.inj_succ, Z.pred_succ in H. simpl in H.
    apply bind_ok in H as (r1 & w1 & Hcall & H).
    apply generate_batch_call_clock in Hcall as [_ Hsleep].
    apply IH in H; [|lia].
    replace (2 * Z.of_nat (S len))%Z with (2 + 2 * Z.of_nat len)%Z by lia.
    rewrite Z2Qc_inj_add, Qcplus_assoc.
    etransitivity; [|exact H].
    apply Qcplus_le_mono_r, Hsleep. lia.
Qed.

Lemma generate_batch_profile_duration n label_prefix p res w res' w' :
  (1 <= n)%Z ->
  generate_batch_profile E n label_prefix p res w = (Ok res', w') ->
  (w_clock w + Qc_of_Z (2 * (n - 1)) ≤ w_clock w')%Qc.
Proof.
  unfold generate_batch_profile. intros Hn.
  replace n with ((n - 1) + 1)%Z at 1 by lia.
  rewrite seqZ_app, for_fold_app by lia. intros H.
  apply bind_ok in H as (r1 & w1 & H1 & H2).
  replace (n - 1)%Z with (Z.of_nat (Z.to_nat (n - 1))) in H1 at 1 by lia.
  apply batch_calls_fold_duration in H1; [|lia].
  change 1%Z with (Z.of_nat 1) in H2.
  apply batch_calls_fold_timed in H2 as [Hle _]; [|lia].
  rewrite Z2Nat.id in H1 by lia.
  etransitivity; [exact H1 | exact Hle].
Qed.

Lemma generate_batch_fold_duration n label_prefix ids :
  (1 <= n)%Z ->
  forall res w res' w',
    for_fold ids (generate_batch_profile E n label_prefix) res w
    = (Ok res', w') ->
    (w_clock w + Qc_of_Z (2 * (n - 1) * Z.of_nat (length ids)) ≤ w_clock w')%Qc.
Proof.
  intros Hn. induction ids as [|p ids IH]; intros res w res' w' H.
  - injection H as <- <-. change (Z.of_nat (length [])) with 0%Z.
    rewrite Z.mul_0_r, Z2Qc_inj_0, Qcplus_0_r. reflexivity.
  - simpl in H. apply bind_ok in H as (r1 & w1 & Hp & H).
    apply generate_batch_profile_duration in Hp; [|done].
    apply IH in H.
    replace (2 * (n - 1) * Z.of_nat (length (p :: ids)))%Z
      with (2 * (n - 1) + 2 * (n - 1) * Z.of_nat (length ids))%Z
      by (simpl length; lia).
    rewrite Z2Qc_inj_add, Qcplus_assoc.
    etransitivity; [|exact H]. by apply Qcplus_le_mono_r.
Qed.

End Timing.

(** C6, as the code has it. In a batch that returns, the calls made for
    one profile of a duplicate-free list carry pairwise different labels
    (they differ in the call index); and all calls of the batch carry
    pairwise different labels when the quota is at least two and the clock
    does not run backwards, because calls of equal index are then two
    seconds or more apart. *)
Theorem generate_batch_labels ids n label_prefix w res w' :
  generate_batch E ids n label_prefix w = (Ok res, w') ->
  (NoDup ids ->
   forall p, NoDup (map call_label
                        (calls_for p (gen_calls (new_trace w w')))))
  /\ ((2 <= n)%Z -> clock_monotone E ->
      NoDup (map call_label (gen_calls (new_trace w w')))).
Proof.
  intros H. split.
  - intros Hnd p. destruct (decide (p ∈ ids)) as [Hp|Hp].
    + destruct (generate_batch_once _ _ _ _ _ _ _ Hnd Hp H)
        as (cs & -> & Hall & _).
      eapply call_of_pass_labels; [done | apply NoDup_seqZ].
    + rewrite calls_for_other; [constructor|].
      apply generate_batch_fold in H as (tr & Htr & Hprof & _).
      rewrite (new_trace_app _ _ _ Htr), Hprof.
      by apply passes_not_elem_of.
  - intros Hn Hclock.
    eapply (generate_batch_fold_timed Hclock _ _ _ Hn _ _ _ _ [])
      in H as (tr & Htr & _ & Hnd); [|constructor|constructor].
    by rewrite (new_trace_app _ _ _ Htr).
Qed.

(** *** One call of [generate_email] *)

Lemma temp_after_cleanup (f : string) (temp : gset string) :
  ({[f]} ∪ temp) ∖ {[f]} = temp ∖ {[f]}.
Proof.
  apply set_eq. intros x.
  rewrite !elem_of_difference, elem_of_union, elem_of_singleton. tauto.
Qed.

Lemma generate_email_body_run profile_id label w r w' :
  generate_email_body E profile_id label w = (r, w') ->
  (w_trace w' = w_trace w
   \/ w_trace w'
      = (w_trace w ++ [EvSubprocess (generator_command profile_id label)])%list)
  /\ (forall a, r = Ok a ->
      w_temp w' = w_temp w
      \/ w_temp w' = w_temp w ∖ {[cookie_file_of profile_id]})
  /\ (forall email, r = Ok (true, email) ->
      lacks_cookies (w_sessions w !! session_path profile_id) = false
      /\ env_write E w (cookie_file_of profile_id) = Written
      /\ (exists out err,
            env_subprocess E
              (set_temp ({[cookie_file_of profile_id]} ∪ w_temp w) w)
              (generator_command profile_id label)
            = ProcDone 0 out err
            /\ email = env_parse_email E out)
      /\ truthy_email email = true).
Proof.
  unfold generate_email_body, bind at 1. rewrite load_session_run.
  change ("temp_" +:+ profile_id +:+ "_cookies.json")
    with (cookie_file_of profile_id).
  change (["python"; main_script; "--cookie-file"; cookie_file_of profile_id]
          ++ (if truthy_label label then ["--label"; get_default label ""]
              else []))%list
    with (generator_command profile_id label).
  unfold lacks_cookies.
  generalize (cookie_file_of profile_id) (generator_command profile_id label).
  intros cf cmd H.
  destruct (w_sessions w !! session_path profile_id) as [[| |[s|b]]|] eqn:Hf.
  1, 2, 5: by injection H as <- <-; split; [auto|split; [auto|intros ? [=]]].
  2: { by destruct (negb (truthy_json (JsonOther b)));
       injection H as <- <-; (split; [auto|split; [auto|intros ? [=]]]). }
  destruct (negb (truthy_json (JsonDict s)));
    [by injection H as <- <-; split; [auto|split; [auto|intros ? [=]]]|].
  destruct (negb (truthy_cookies _)) eqn:Hc;
    [by injection H as <- <-; split; [auto|split; [auto|intros ? [=]]]|].
  revert H.
  unfold try_finally, try_except, bind, write_cookie_file, subprocess_run,
    remove_cookie_file, elapse, gets, modify, ret, raise. simpl.
  unfold bind. simpl.
  assert (bool_decide (cf ∈ {[cf]} ∪ w_temp w) = true) as Hin
    by (by apply bool_decide_eq_true, elem_of_union_l, elem_of_singleton).
  destruct (env_write E w cf) eqn:Hw; simpl;
    [destruct (env_subprocess E _ cmd) as [|rc out err] eqn:Hp; simpl;
     [|destruct (rc =? 0)%Z eqn:Hrc;
       [apply Z.eqb_eq in Hrc as ->;
        destruct (truthy_email (env_parse_email E out)) eqn:Hem|]]|..];
    simpl; rewrite ?Hin;
    try destruct (bool_decide (cf ∈ w_temp w)) eqn:Hb; simpl;
    try destruct (env_unlink_fails E _ cf) eqn:Hu; simpl;
    intros [= <- <-]; simpl;
    (split; [by auto|split; [by intros ? [=]; auto using temp_after_cleanup|]]);
    intros ? [=]; subst; split_and!; eauto.
Qed.

Lemma generate_email_body_without_cookies profile_id label w :
  lacks_cookies (w_sessions w !! session_path profile_id) = true ->
  generate_email_body E profile_id label w = (Ok (false, None), w).
Proof.
  intros H. unfold generate_email_body, bind at 1. rewrite load_session_run.
  destruct (w_sessions w !! session_path profile_id) as [[| |[s|b]]|];
    simpl in *; try done.
  - rewrite H. clear H. by case_match.
  - by rewrite H.
Qed.

(** X1. For a profile whose session file gives no cookies (no file, a file
    that is not JSON, a falsy JSON value, an object whose cookies are
    missing or empty) [generate_email] returns [(False, None)] at once: it
    writes no file, runs no generator and lets no time pass; the world is
    as before it, but for the record of the call. *)
Theorem generate_email_without_cookies profile_id label w :
  lacks_cookies (w_sessions w !! session_path profile_id) = true ->
  generate_email E profile_id label w
  = (Ok (false, None),
     record_event (EvGenerateEmail profile_id label (Ok (false, None))) w).
Proof.
  intros H. unfold generate_email.
  by rewrite (generate_email_body_without_cookies _ _ _ H).
Qed.

(** X2. Whatever its outcome, one call of [generate_email] runs the
    generator at most once, and with the command line
    [python <main script> --cookie-file temp_<id>_cookies.json], followed
    by [--label <label>] exactly when the label is a non-empty string. *)
Theorem generate_email_one_subprocess profile_id label w :
  new_trace w (generate_email E profile_id label w).2
  = [EvGenerateEmail profile_id label (generate_email E profile_id label w).1]
  \/ new_trace w (generate_email E profile_id label w).2
     = [EvSubprocess (generator_command profile_id label);
        EvGenerateEmail profile_id label
          (generate_email E profile_id label w).1].
Proof.
  unfold generate_email.
  destruct (generate_email_body E profile_id label w) as [r w1] eqn:Hb.
  apply generate_email_body_run in Hb as [[Htr|Htr] _]; simpl.
  - left. apply new_trace_app. simpl. by rewrite Htr.
  - right. apply new_trace_app. simpl. by rewrite Htr, <-app_assoc.
Qed.


(** X4. [generate_email] reports success only when all of this happened:
    the session file gave cookies, the temporary cookie file was written,
    the generator exited with code 0, and the address returned is the one
    parsed from what the generator printed, which is not empty. *)
Theorem generate_email_success profile_id label w email w' :
  generate_email E profile_id label w = (Ok (true, email), w') ->
  lacks_cookies (w_sessions w !! session_path profile_id) = false
  /\ env_write E w (cookie_file_of profile_id) = Written
  /\ (exists out err,
        env_subprocess E
          (set_temp ({[cookie_file_of profile_id]} ∪ w_temp w) w)
          (generator_command profile_id label)
        = ProcDone 0 out err
        /\ email = env_parse_email E out)
  /\ truthy_email email = true.
Proof.
  unfold generate_email.
  destruct (generate_email_body E profile_id label w) as [r1 w1] eqn:Hb.
  intros [= -> <-]. apply generate_email_body_run in Hb as (_ & _ & Hs). eauto.
Qed.

(** *** What a batch leaves in place and what it returns *)

Lemma generate_batch_call_sessions p n label_prefix i res :
  preserves same_sessions (generate_batch_call E p n label_prefix i res).
Proof.
  unfold generate_batch_call, time_time, time_sleep, elapse.
  repeat first
    [ apply preserves_ret | apply preserves_gets | apply preserves_bind
    | apply generate_email_sessions
    | apply same_sessions_preorder
    | match goal with |- forall _, _ => intros ? end
    | case_match
    | apply preserves_modify; intros w; reflexivity ].
Qed.

Lemma generate_batch_sessions ids n label_prefix :
  preserves same_sessions (generate_batch E ids n label_prefix).
Proof.
  apply preserves_for_fold; [apply _|]. intros p res.
  apply preserves_for_fold; [apply _|]. intros i res'.
  apply generate_batch_call_sessions.
Qed.

(** X5. [generate_batch] only reads the session cache: whether it returns
    or raises, and whatever the generator does, the files under
    [sessions/] are afterwards what they were before. *)
Theorem generate_batch_reads_sessions ids n label_prefix w :
  w_sessions (generate_batch E ids n label_prefix w).2 = w_sessions w.
Proof.
  destruct (generate_batch E ids n label_prefix w) as [r w'] eqn:H.
  by apply generate_batch_sessions in H.
Qed.

Lemma generate_batch_fold_nothing n label_prefix ids :
  (n <= 0)%Z ->
  forall res w,
    for_fold ids (generate_batch_profile E n label_prefix) res w
    = (Ok (foldl (fun r p => <[p := []]> r) res ids), w).
Proof.
  intros Hn. induction ids as [|p ids IH]; intros res w; [done|].
  simpl. unfold generate_batch_profile at 1, bind.
  rewrite seqZ_nil by done. simpl. apply IH.
Qed.

Lemma foldl_insert_nil_lookup (ids : list string) :
  forall (res : gmap string (list string)) p,
    foldl (fun r p => <[p := []]> r) res ids !! p
    = if decide (p ∈ ids) then Some [] else res !! p.
Proof.
  induction ids as [|q ids IH]; intros res p; simpl.
  - destruct (decide (p ∈ [])) as [Hp|Hp]; [by apply elem_of_nil in Hp | done].
  - rewrite IH.
    destruct (decide (p ∈ ids)) as [Hp|Hp],
      (decide (p ∈ q :: ids)) as [Hq|Hq]; try done.
    + exfalso. apply Hq. by right.
    + apply elem_of_cons in Hq as [->|?]; [apply lookup_insert_eq | done].
    + apply lookup_insert_ne. intros ->. apply Hq. left.
Qed.

(** X6. With a quota of zero or less, [generate_batch] calls nothing and
    changes nothing: it returns at once, the world is untouched, and the
    result maps every listed profile to an empty list. *)
Theorem generate_batch_no_quota ids n label_prefix w :
  (n <= 0)%Z ->
  exists res,
    generate_batch E ids n label_prefix w = (Ok res, w)
    /\ forall p, res !! p = if decide (p ∈ ids) then Some [] else None.
Proof.
  intros Hn. eexists. split.
  - by apply generate_batch_fold_nothing.
  - intros p. by rewrite foldl_insert_nil_lookup, lookup_empty.
Qed.

Lemma generate_batch_fold_keys n label_prefix ids :
  forall res w res' w',
    for_fold ids (generate_batch_profile E n label_prefix) res w
    = (Ok res', w') ->
    forall p, is_Some (res' !! p) <-> p ∈ ids \/ is_Some (res !! p).
Proof.
  induction ids as [|q ids IH]; intros res w res' w' H p.
  - injection H as <- <-. rewrite elem_of_nil. tauto.
  - simpl in H. apply bind_ok in H as (r1 & w1 & Hq & H).
    apply generate_batch_profile_spec in Hq as (tr1 & _ & _ & ->).
    rewrite (IH _ _ _ _ H p), lookup_insert_is_Some, elem_of_cons.
    destruct (decide (q = p)) as [->|Hne]; [tauto|].
    split; [intros [?|[?|[_ ?]]]; auto; congruence | intros [[?|?]|?]; auto];
      congruence.
Qed.

(** X7. The dictionary a batch returns has exactly the listed profiles as
    its keys, and none of its lists is longer than the quota, also when a
    profile is listed more than once. *)
Theorem generate_batch_result_shape ids n label_prefix w res w' :
  generate_batch E ids n label_prefix w = (Ok res, w') ->
  (forall p, is_Some (res !! p) <-> p ∈ ids)
  /\ (forall p l, res !! p = Some l -> length l <= Z.to_nat n).
Proof.
  intros H.
  assert (forall p, is_Some (res !! p) <-> p ∈ ids) as Hkeys.
  { intros p. rewrite (generate_batch_fold_keys _ _ _ _ _ _ _ H p).
    rewrite lookup_empty, is_Some_alt. tauto. }
  split; [done|]. intros p l Hl.
  assert (p ∈ ids) as (ids1 & ids2 & -> & Hp)%list_elem_of_split_r
    by (apply Hkeys; by eexists).
  apply generate_batch_split in H
    as (res1 & w1 & tr2 & tr3 & _ & _ & Hall & _ & Hres).
  rewrite (Hres Hp) in Hl. injection Hl as <-.
  apply Forall2_length in Hall. rewrite length_seqZ in Hall.
  pose proof (emails_of_le (gen_calls tr2)). lia.
Qed.

Lemma generate_batch_call_without_cookies p n label_prefix i res w res' w' :
  lacks_cookies (w_sessions w !! session_path p) = true ->
  generate_batch_call E p n label_prefix i res w = (Ok res', w') ->
  res' = res /\ new_trace w w'
                = [EvGenerateEmail p (Some (make_label label_prefix (w_clock w) i))
                     (Ok (false, None))].
Proof.
  intros Hlack. unfold generate_batch_call, generate_email. intros H.
  apply bind_ok in H as (now & w0 & [= <- <-] & H).
  apply bind_ok in H as ([success email] & w1 & Hg & H).
  rewrite (generate_email_body_without_cookies _ _ _ Hlack) in Hg.
  injection Hg as <- <- <-.
  apply bind_ok in H as ([] & w2 & Hs & [= <- <-]).
  split; [done|]. apply new_trace_app.
  destruct (i <? n - 1)%Z; by injection Hs as <-.
Qed.

Lemma batch_calls_fold_without_cookies p n label_prefix (indices : list Z) :
  forall res w res' w',
    lacks_cookies (w_sessions w !! session_path p) = true ->
    for_fold indices (generate_batch_call E p n label_prefix) res w
    = (Ok res', w') ->
    res' = res /\ Forall (fun e => ~ is_subprocess e) (new_trace w w').
Proof.
  induction indices as [|i indices IH]; intros res w res' w' Hlack H.
  - injection H as <- <-. split; [done|].
    unfold new_trace. rewrite drop_all. constructor.
  - simpl in H. apply bind_ok in H as (r1 & w1 & Hcall & H).
    pose proof (generate_batch_call_sessions _ _ _ _ _ _ _ _ Hcall) as Hs.
    pose proof (generate_batch_call_any _ _ _ _ _ _ _ _ Hcall)
      as (tr1 & _ & Htr1 & _).
    apply generate_batch_call_without_cookies in Hcall as [-> Hnew]; [|done].
    rewrite (new_trace_app _ _ _ Htr1) in Hnew. subst tr1.
    unfold same_sessions in Hs. rewrite <-Hs in Hlack.
    pose proof H as Htr2.
    apply batch_calls_fold_any in Htr2 as (tr2 & _ & Htr2 & _).
    apply IH in H as [-> Hall]; [|done]. split; [done|].
    rewrite (new_trace_app _ _ _ Htr2) in Hall.
    rewrite Htr1, <-app_assoc in Htr2. rewrite (new_trace_app _ _ _ Htr2).
    apply Forall_app. split; [|done]. apply Forall_singleton. by intros [].
Qed.

(** X8. A listed profile whose session file gives no cookies costs a batch
    nothing but the calls: the batch goes on, the generator is not run
    during the pass over that profile, and the profile gets an empty list
    in the result (if it is not listed again later). *)
Theorem generate_batch_without_cookies ids1 p ids2 n label_prefix w res w' :
  lacks_cookies (w_sessions w !! session_path p) = true ->
  p ∉ ids2 ->
  generate_batch E (ids1 ++ p :: ids2) n label_prefix w = (Ok res, w') ->
  res !! p = Some []
  /\ exists res1 w1 res2 w2,
       generate_batch E ids1 n label_prefix w = (Ok res1, w1)
       /\ generate_batch_profile E n label_prefix p res1 w1 = (Ok res2, w2)
       /\ Forall (fun e => ~ is_subprocess e) (new_trace w1 w2).
Proof.
  intros Hlack Hp. unfold generate_batch. rewrite for_fold_app. intros H.
  apply bind_ok in H as (res1 & w1 & H1 & H). simpl in H.
  apply bind_ok in H as (res2 & w2 & H2 & H3).
  pose proof (generate_batch_sessions _ _ _ _ _ _ H1) as Hs.
  unfold same_sessions in Hs. rewrite <-Hs in Hlack.
  pose proof H2 as H2'. unfold generate_batch_profile in H2'.
  apply batch_calls_fold_without_cookies in H2' as [-> Hall]; [|done].
  apply generate_batch_fold in H3 as (_ & _ & _ & _ & Hother).
  split; [by rewrite (Hother p Hp), lookup_insert_eq|].
  by exists res1, w1, (<[p:=[]]> res1), w2.
Qed.

Lemma generate_batch_call_temp p n label_prefix i res w res' w' :
  cookie_file_of p ∉ w_temp w ->
  generate_batch_call E p n label_prefix i res w = (Ok res', w') ->
  w_temp w' = w_temp w.
Proof.
  intros Hnot. unfold generate_batch_call, generate_email. intros H.
  apply bind_ok in H as (now & w0 & [= <- <-] & H).
  apply bind_ok in H as ([success email] & w1 & Hg & H).
  destruct (generate_email_body E p _ w) as [r0 w0] eqn:Hb.
  injection Hg as -> <-.
  apply generate_email_body_run in Hb as (_ & Htemp & _).
  apply bind_ok in H as ([] & w2 & Hs & [= <- <-]).
  assert (w_temp w2 = w_temp w0) as ->
    by (destruct (i <? n - 1)%Z; by injection Hs as <-).
  destruct (Htemp _ eq_refl) as [Ht|Ht]; [done|]. rewrite Ht.
  apply set_eq. intros x. rewrite elem_of_difference, elem_of_singleton.
  split; [tauto|]. intros Hx. split; [done|]. by intros ->.
Qed.

(** X9. A batch that returns leaves no temporary cookie file behind: if
    none of the cookie files of the listed profiles existed before it, the
    set of temporary files is afterwards what it was. *)
Theorem generate_batch_temp_files ids n label_prefix w res w' :
  (forall p, p ∈ ids -> cookie_file_of p ∉ w_temp w) ->
  generate_batch E ids n label_prefix w = (Ok res, w') ->
  w_temp w' = w_temp w.
Proof.
  unfold generate_batch. generalize (∅ : gmap string (list string)).
  revert w. induction ids as [|p ids IH]; intros w res0 Hnot H.
  - by injection H as <- <-.
  - simpl in H. apply bind_ok in H as (r1 & w1 & Hp & H).
    assert (w_temp w1 = w_temp w) as Hw1.
    { assert (cookie_file_of p ∉ w_temp w) as Hcf by (apply Hnot; left).
      revert Hp Hcf. unfold generate_batch_profile.
      generalize (<[p:=[]]> res0). clear. revert w.
      induction (seqZ 0 n) as [|i indices IHi]; intros w r H Hcf.
      - by injection H as <- <-.
      - simpl in H. apply bind_ok in H as (r2 & w2 & Hc & H).
        apply generate_batch_call_temp in Hc; [|done].
        rewrite <-Hc. eapply IHi; [done|]. by rewrite Hc. }
    rewrite <-Hw1. eapply IH; [|done].
    intros q Hq. rewrite Hw1. apply Hnot. by right.
Qed.

(** X10. The pacing of a batch. When the clock does not run backwards, a
    batch of quota [n >= 1] over [k] listed profiles that returns has
    taken at least [2 * (n - 1) * k] seconds: every call but the last of
    each pass is followed by a delay of two seconds. *)
Theorem generate_batch_duration ids n label_prefix w res w' :
  clock_monotone E ->
  (1 <= n)%Z ->
  generate_batch E ids n label_prefix w = (Ok res, w') ->
  (w_clock w + Qc_of_Z (2 * (n - 1) * Z.of_nat (length ids)) ≤ w_clock w')%Qc.
Proof.
  intros Hclock Hn H.
  by eapply (generate_batch_fold_duration Hclock).
Qed.

End Batch.

(** ** The parser of the generator's output *)

Section Parser.

Variable E : Env.

Lemma linebreak_isspace c : is_linebreak c = true -> isspace c = true.
Proof. destruct c as [[] [] [] [] [] [] [] []]; vm_compute; done. Qed.

Lemma prefix_nil s : String.prefix "" s = true.
Proof. by destruct s. Qed.

Lemma str_in_cons sub c s :
  str_in sub (String c s) = String.prefix sub (String c s) || str_in sub s.
Proof. done. Qed.

Lemma before_sep_cons sep c s :
  before_sep sep (String c s)
  = if String.prefix sep (String c s) then "" else String c (before_sep sep s).
Proof. done. Qed.

Lemma string_app_cons a (s t : string) :
  String a s +:+ t = String a (s +:+ t).
Proof. done. Qed.

Lemma string_app_nil_r (s : string) : s +:+ "" = s.
Proof.
  induction s as [|a s IH]; [done | by rewrite string_app_cons, IH].
Qed.

Lemma string_app_snoc (s : string) c t :
  (s +:+ String c "") +:+ t = s +:+ String c t.
Proof.
  induction s as [|a s IH]; [done | by rewrite !string_app_cons, IH].
Qed.

Lemma string_app_assoc (s t u : string) : (s +:+ t) +:+ u = s +:+ (t +:+ u).
Proof.
  induction s as [|a s IH]; [done | by rewrite !string_app_cons, IH].
Qed.

Lemma has_char_app c (s t : string) :
  has_char c (s +:+ t) <-> has_char c s \/ has_char c t.
Proof.
  induction s as [|a s IH].
  - change ("" +:+ t) with t. simpl. tauto.
  - rewrite string_app_cons. simpl. rewrite IH. tauto.
Qed.

Lemma str_in_char c s : str_in (String c "") s = true <-> has_char c s.
Proof.
  induction s as [|d s IH]; [done|].
  rewrite str_in_cons, orb_true_iff, IH. simpl.
  destruct (ascii_dec c d) as [->|Hne].
  - rewrite prefix_nil. split; intros _; by left.
  - split; (intros [?|?]; [done | by right]).
Qed.

Lemma str_in_app_r sub (p e : string) :
  str_in sub e = true -> str_in sub (p +:+ e) = true.
Proof.
  intros H. induction p as [|a p IH]; [done|].
  rewrite string_app_cons, str_in_cons, IH. apply orb_true_r.
Qed.

(** The lines, the parts and what is left after stripping hold no
    character that the text did not hold. *)
Lemma splitlines_go_chars s :
  forall after_cr cur line,
    line ∈ splitlines_go after_cr cur s ->
    forall c, has_char c line -> has_char c cur \/ has_char c s.
Proof.
  induction s as [|d s IH]; intros after_cr cur line Hline c Hc; simpl in Hline.
  - destruct (truthy_str cur); [|by apply elem_of_nil in Hline].
    apply list_elem_of_singleton in Hline as ->. by left.
  - destruct (after_cr && Ascii.eqb d "010").
    { destruct (IH _ _ _ Hline c Hc); [by left | right; by right]. }
    destruct (is_linebreak d).
    + apply elem_of_cons in Hline as [->|Hline]; [by left|].
      destruct (IH _ _ _ Hline c Hc); [done | right; by right].
    + destruct (IH _ _ _ Hline c Hc) as [[?|Hd]%has_char_app|?];
        [by left | right; left | right; by right].
      simpl in Hd. by destruct Hd.
Qed.

Lemma lstrip_chars c s : has_char c (lstrip s) -> has_char c s.
Proof.
  induction s as [|d s IH]; simpl; [done|].
  destruct (isspace d); [right; auto | done].
Qed.

Lemma rstrip_chars c s : has_char c (rstrip s) -> has_char c s.
Proof.
  induction s as [|d s IH]; simpl; [done|].
  destruct (rstrip s) as [|d' r] eqn:Hr.
  - destruct (isspace d); simpl; [done | tauto].
  - simpl in *. tauto.
Qed.

Lemma parse_lines_some lines e :
  parse_lines lines = Some e ->
  exists line, line ∈ lines /\ has_at_and_dot line = true.
Proof.
  induction lines as [|line lines IH]; simpl; [done|].
  destruct (has_at_and_dot line) eqn:Hline.
  - intros _. exists line. split; [left | done].
  - simpl. intros (line' & Hin & H')%IH. exists line'. split; [by right | done].
Qed.

Lemma parse_chars output e :
  _parse_email_from_output output = Some e ->
  has_char "@" output /\ has_char "." output.
Proof.
  unfold _parse_email_from_output, splitlines.
  intros (line & Hin & [Hat Hdot]%andb_true_iff)%parse_lines_some.
  apply str_in_char in Hat, Hdot.
  destruct (splitlines_go_chars _ _ _ _ Hin _ Hat) as [[]|?].
  destruct (splitlines_go_chars _ _ _ _ Hin _ Hdot) as [[]|?]. done.
Qed.

(** X22. [_parse_email_from_output] finds an address only in an output
    that holds both an [@] and a dot: for any other output it returns
    [None]. *)
Theorem parse_needs_at_and_dot output :
  str_in "@" output && str_in "." output = false ->
  _parse_email_from_output output = None.
Proof.
  intros H. destruct (_parse_email_from_output output) as [e|] eqn:He; [|done].
  apply parse_chars in He as [Hat%str_in_char Hdot%str_in_char].
  by rewrite Hat, Hdot in H.
Qed.

(** *** Reading back what [generator_client.py] prints *)

Lemma no_space_has_char s c :
  no_space s = true -> has_char c s -> isspace c = false.
Proof.
  induction s as [|d s IH]; simpl; [done|].
  intros [Hd Hs]%andb_true_iff [->|Hc]; [by apply negb_true_iff | auto].
Qed.

Lemma splitlines_go_one s :
  (forall c, has_char c s -> is_linebreak c = false) ->
  forall cur,
    splitlines_go false cur s
    = if truthy_str (cur +:+ s) then [cur +:+ s] else [].
Proof.
  induction s as [|d s IH]; intros Hs cur; simpl.
  - by rewrite string_app_nil_r.
  - rewrite (Hs d) by (by left).
    rewrite IH by (intros c Hc; apply Hs; by right).
    by rewrite string_app_snoc.
Qed.

Lemma split_go_one s :
  no_space s = true ->
  forall cur,
    split_go cur s = if truthy_str (cur +:+ s) then [cur +:+ s] else [].
Proof.
  induction s as [|d s IH]; simpl; intros Hs cur.
  - by rewrite string_app_nil_r.
  - apply andb_true_iff in Hs as [Hd%negb_true_iff Hs].
    by rewrite Hd, IH, string_app_snoc.
Qed.

Lemma lstrip_no_space s : no_space s = true -> lstrip s = s.
Proof.
  destruct s as [|d s]; simpl; [done|].
  by intros [->%negb_true_iff _]%andb_true_iff.
Qed.

Lemma rstrip_no_space s : no_space s = true -> rstrip s = s.
Proof.
  induction s as [|d s IH]; simpl; [done|].
  intros [Hd%negb_true_iff Hs]%andb_true_iff.
  rewrite IH, Hd by done. by destruct s.
Qed.

Lemma rstrip_app (p e : string) :
  e ≠ "" -> rstrip e = e -> rstrip (p +:+ e) = p +:+ e.
Proof.
  intros Hne He. induction p as [|a p IH]; [done|].
  rewrite string_app_cons. simpl. rewrite IH.
  destruct (p +:+ e) eqn:Hpe; [|done].
  destruct p; [done | by rewrite string_app_cons in Hpe].
Qed.

Lemma rstrip_snoc_space s c :
  isspace c = true -> rstrip (s +:+ String c "") = rstrip s.
Proof.
  intros Hc. induction s as [|a s IH].
  - change ("" +:+ String c "") with (String c ""). simpl. by rewrite Hc.
  - rewrite string_app_cons. simpl. by rewrite IH.
Qed.

Lemma prefix_app_inv (s1 s2 : string) :
  String.prefix s1 s2 = true -> exists r, s2 = s1 +:+ r.
Proof.
  revert s2. induction s1 as [|a s1 IH]; intros s2 H; [by exists s2|].
  destruct s2 as [|b s2]; [done|]. simpl in H.
  destruct (ascii_dec a b) as [->|]; [|done].
  apply IH in H as [r ->]. by exists r.
Qed.

(** The marker holds a space, so it does not occur in a text without
    whitespace, nor does it begin there after one more character. *)
Lemma marker_space c s :
  String.prefix "Generated email:" (String c s) = true -> no_space s = false.
Proof. intros [r [= -> ->]]%prefix_app_inv. vm_compute. done. Qed.

Lemma str_in_marker_no_space s :
  no_space s = true -> str_in "Generated email:" s = false.
Proof.
  induction s as [|d s IH]; [done|]. intros Hs.
  assert (no_space s = true) as Hs'
    by (simpl in Hs; by apply andb_true_iff in Hs as [_ ?]).
  rewrite str_in_cons, IH, orb_false_r by done.
  destruct (String.prefix _ _) eqn:Hp; [|done].
  apply marker_space in Hp. congruence.
Qed.

Lemma before_sep_none sep s : str_in sep s = false -> before_sep sep s = s.
Proof.
  induction s as [|d s IH].
  - intros _. by destruct sep.
  - rewrite str_in_cons, before_sep_cons.
    intros [-> Hs]%orb_false_iff. by rewrite IH.
Qed.

Lemma has_at_nonempty e : has_at_and_dot e = true -> e ≠ "".
Proof. by intros H ->. Qed.

Lemma parse_marker_line e :
  no_space e = true -> has_at_and_dot e = true ->
  _parse_email_from_output ("Generated email: " +:+ e) = Some e.
Proof.
  intros Hs Hat. unfold _parse_email_from_output, splitlines.
  rewrite splitlines_go_one.
  - change (truthy_str ("" +:+ "Generated email: " +:+ e)) with true.
    change ("" +:+ "Generated email: " +:+ e) with ("Generated email: " +:+ e).
    cbv iota. unfold parse_lines.
    assert (has_at_and_dot ("Generated email: " +:+ e) = true) as ->.
    { apply andb_true_iff in Hat as [H1 H2]. unfold has_at_and_dot.
      by rewrite !str_in_app_r. }
    assert (str_in "Generated email:" ("Generated email: " +:+ e) = true) as ->
      by done.
    cbv iota beta. simpl andb. cbv iota. f_equal.
    unfold split_second.
    change (after_sep "Generated email:" ("Generated email: " +:+ e))
      with (String " " e).
    rewrite before_sep_none.
    + unfold strip. change (lstrip (String " " e)) with (lstrip e).
      by rewrite lstrip_no_space, rstrip_no_space.
    + rewrite str_in_cons, str_in_marker_no_space, orb_false_r by done.
      destruct (String.prefix _ _) eqn:Hp; [|done].
      apply marker_space in Hp. congruence.
  - intros c [Hc|Hc]%has_char_app.
    + simpl in Hc. repeat (destruct Hc as [->|Hc]; [by vm_compute|]). done.
    + destruct (is_linebreak c) eqn:Hl; [|done].
      apply linebreak_isspace in Hl.
      by rewrite (no_space_has_char _ _ Hs Hc) in Hl.
Qed.

Lemma parse_bare_line e :
  no_space e = true -> has_at_and_dot e = true ->
  _parse_email_from_output e = Some e.
Proof.
  intros Hs Hat. unfold _parse_email_from_output, splitlines.
  pose proof (has_at_nonempty _ Hat) as Hne.
  rewrite splitlines_go_one.
  - change ("" +:+ e) with e.
    assert (truthy_str e = true) as Ht by (by destruct e).
    rewrite Ht. unfold parse_lines.
    rewrite Hat, str_in_marker_no_space by done. simpl andb. cbv iota.
    unfold split_whitespace. rewrite split_go_one by done.
    change ("" +:+ e) with e. rewrite Ht. unfold parse_parts.
    rewrite Hat. unfold strip.
    by rewrite lstrip_no_space, rstrip_no_space.
  - intros c Hc. destruct (is_linebreak c) eqn:Hl; [|done].
    apply linebreak_isspace in Hl.
    by rewrite (no_space_has_char _ _ Hs Hc) in Hl.
Qed.

Lemma strip_printed e :
  no_space e = true -> e ≠ "" ->
  strip ("Generated email: " +:+ e +:+ String "010" "")
  = "Generated email: " +:+ e.
Proof.
  intros Hs Hne. unfold strip.
  change (lstrip ("Generated email: " +:+ e +:+ String "010" ""))
    with ("Generated email: " +:+ e +:+ String "010" "").
  rewrite <-string_app_assoc, rstrip_snoc_space by done.
  apply rstrip_app; [done | by apply rstrip_no_space].
Qed.

(** X23. The parser reads back what [generator_client.py] itself prints
    on success. For an address [e] without whitespace that holds an [@]
    and a dot, the line [Generated email: e] followed by a newline,
    stripped as [generate_email] strips the output of the generator, is
    parsed to [e]; so is the bare address. *)
Theorem parse_printed_address e :
  no_space e = true -> has_at_and_dot e = true ->
  _parse_email_from_output
    (strip ("Generated email: " +:+ e +:+ String "010" "")) = Some e
  /\ _parse_email_from_output e = Some e.
Proof.
  intros Hs Hat. split.
  - rewrite strip_printed by (by try apply has_at_nonempty).
    by apply parse_marker_line.
  - by apply parse_bare_line.
Qed.

(** X24. With the parser in place, [generate_email] reports success only
    if the generator exited with code 0 and printed an [@] and a dot: the
    address returned is what [_parse_email_from_output] makes of the
    stripped output, and is not empty. *)
Theorem generate_email_parsed profile_id label w email w' :
  parses_output E ->
  generate_email E profile_id label w = (Ok (true, email), w') ->
  exists out err e,
    env_subprocess E (set_temp ({[cookie_file_of profile_id]} ∪ w_temp w) w)
      (generator_command profile_id label) = ProcDone 0 out err
    /\ email = Some e /\ e ≠ ""
    /\ _parse_email_from_output (strip out) = Some e
    /\ has_char "@" out /\ has_char "." out.
Proof.
  intros Hparse. unfold generate_email.
  destruct (generate_email_body E profile_id label w) as [r1 w1] eqn:Hb.
  intros [= -> <-].
  apply generate_email_body_run in Hb as (_ & _ & Hs).
  destruct (Hs _ eq_refl) as (_ & _ & (out & err & Hrun & ->) & Ht).
  rewrite Hparse in Ht |- *.
  destruct (_parse_email_from_output (strip out)) as [e|] eqn:He; [|done].
  exists out, err, e. split_and!; try done.
  - intros ->. done.
  - apply parse_chars in He as [Hat _].
    by apply rstrip_chars, lstrip_chars in Hat.
  - apply parse_chars in He as [_ Hdot].
    by apply rstrip_chars, lstrip_chars in Hdot.
Qed.

End Parser.

(** ** The cookie extractor: [extract_all_profiles_cookies] *)

Section Extraction.

Variable E : Env.

#[local] Existing Instance same_sessions_preorder.






(** *** The cookies read from Chrome's table *)

Lemma add_cookie_rows_ind (P : Cookies -> Prop) (rs : list CookieRow) :
  (forall c r, r ∈ rs -> P c -> P (add_cookie_row E c r)) ->
  forall c, P c -> P (foldl (add_cookie_row E) c rs).
Proof.
  induction rs as [|r rs IH]; intros Hstep c Hc; simpl; [done|].
  apply IH; [intros c' r' Hr'; apply Hstep; by right|].
  apply Hstep; [left | done].
Qed.

Lemma collect_cookies_ind (P : Cookies -> Prop) rows :
  P ∅ ->
  (forall c name r,
     name ∈ REQUIRED_COOKIES -> r ∈ rows name -> P c ->
     P (add_cookie_row E c r)) ->
  P (collect_cookies E rows).
Proof.
  intros H0. unfold collect_cookies. revert H0. generalize (∅ : Cookies).
  induction REQUIRED_COOKIES as [|name names IH]; intros c Hc Hstep; simpl;
    [done|].
  apply IH; [|intros c' n r Hn; apply Hstep; by right].
  apply add_cookie_rows_ind; [|done].
  intros c' r Hr. apply (Hstep c' name r); [left | done].
Qed.

(** X12. Every cookie that [extract_cookies_from_profile] collects has a
    non-empty value and was read off a row that the query for one of the
    required names returned: the value is the plain value of the row, or,
    when the row has none, its encrypted value decoded as UTF-8, and this
    never for a value under the [v10] scheme. A table whose rows are all
    [v10] rows therefore yields no cookie at all. *)
Theorem collect_cookies_sound rows :
  (forall k v, collect_cookies E rows !! k = Some v ->
     truthy_str v = true
     /\ exists name r, name ∈ REQUIRED_COOKIES /\ r ∈ rows name
                       /\ read_off E r k v)
  /\ ((forall name r, name ∈ REQUIRED_COOKIES -> r ∈ rows name -> v10_row r) ->
      collect_cookies E rows = ∅).
Proof.
  split.
  - apply (collect_cookies_ind (fun c => forall k v, c !! k = Some v ->
      truthy_str v = true
      /\ exists name r, name ∈ REQUIRED_COOKIES /\ r ∈ rows name
                        /\ read_off E r k v)).
    + intros k v. by rewrite lookup_empty.
    + intros c name r Hname Hr IH k v. unfold add_cookie_row.
      destruct (truthy_str (row_value r)) eqn:Hv; simpl.
      * destruct (decide (k = row_name r)) as [->|Hne].
        -- rewrite lookup_insert_eq. intros [= <-]. split; [done|].
           exists name, r. split_and!; try done. split; [done | by left].
        -- rewrite lookup_insert_ne by done. apply IH.
      * assert (row_value r = "") as Hempty
          by (by destruct (row_value r)).
        destruct (truthy_str (row_encrypted r)); [|apply IH].
        unfold decrypt_cookie_value.
        destruct (String.prefix "v10" (row_encrypted r)) eqn:Hp; [apply IH|].
        destruct (env_decode_utf8 E (row_encrypted r)) as [d|] eqn:Hd;
          [|apply IH].
        destruct (truthy_str d) eqn:Htd; [|apply IH].
        destruct (decide (k = row_name r)) as [->|Hne].
        -- rewrite lookup_insert_eq. intros [= <-]. split; [done|].
           exists name, r. split_and!; try done. split; [done | by right].
        -- rewrite lookup_insert_ne by done. apply IH.
  - intros Hv10. apply (collect_cookies_ind (fun c => c = ∅)); [done|].
    intros c name r Hname Hr ->. destruct (Hv10 name r Hname Hr) as [Hv Hp].
    unfold add_cookie_row, decrypt_cookie_value. rewrite Hv, Hp. simpl.
    by destruct (truthy_str (row_encrypted r)).
Qed.

(** *** The profiles of a configuration *)









End Extraction.


Create HintDb frame.
Create HintDb wframe.

(** ** The scheduler *)

Section Scheduler.

Variable E : Env.

#[local] Instance self_rel_preorder Q `{!PreOrder Q} : PreOrder (self_rel Q).
Proof.
  split.
  - intros s. unfold self_rel. reflexivity.
  - intros s1 s2 s3. unfold self_rel. by etransitivity.
Qed.

#[local] Instance same_field_preorder {A} (f : TaskScheduler -> A) :
  PreOrder (fun t t' => f t' = f t).
Proof. split; [done|]. intros t1 t2 t3. congruence. Qed.

#[local] Instance same_fields_preorder {A B} (f : TaskScheduler -> A)
    (g : TaskScheduler -> B) :
  PreOrder (fun t t' => f t' = f t /\ g t' = g t).
Proof. split; [done|]. intros t1 t2 t3 [? ?] [? ?]. split; congruence. Qed.

#[local] Instance keeps_preorder {A} (f : TaskScheduler -> A) :
  PreOrder (keeps f).
Proof. apply self_rel_preorder, _. Qed.

#[local] Instance same_control_preorder : PreOrder same_control.
Proof. apply self_rel_preorder, _. Qed.

#[local] Instance counters_le_preorder : PreOrder counters_le.
Proof.
  split.
  - intros m i n H. exists n. split; [done | lia].
  - intros m1 m2 m3 H12 H23 i n H.
    destruct (H12 _ _ H) as (n2 & H2 & ?).
    destruct (H23 _ _ H2) as (n3 & H3 & ?).
    exists n3. split; [done | lia].
Qed.

#[local] Instance both_counters_preorder :
  PreOrder (fun t t' =>
              counters_le (extraction_counts t) (extraction_counts t')
              /\ counters_le (emails_generated t) (emails_generated t')).
Proof.
  split.
  - intros t. split; reflexivity.
  - intros t1 t2 t3 [? ?] [? ?]. split; by etransitivity.
Qed.

#[local] Instance counters_grow_preorder : PreOrder counters_grow.
Proof. apply self_rel_preorder, _. Qed.

Lemma preserves_in_world Q `{!Reflexive Q} {A} (m : M World A) :
  preserves (self_rel Q) (in_world m).
Proof.
  intros s r s'. unfold in_world. destruct (m (world s)) as [r1 w1].
  intros [= _ <-]. unfold self_rel. simpl. reflexivity.
Qed.

Lemma preserves_update_self Q f :
  (forall t, Q t (f t)) -> preserves (self_rel Q) (update_self f).
Proof. intros Hf s r s' [= _ <-]. apply Hf. Qed.

Lemma returns_in_world {A} (m : M World A) : returns m -> returns (in_world m).
Proof.
  intros Hm s. destruct (Hm (world s)) as (a & w' & H).
  unfold in_world. rewrite H. by eexists _, _.
Qed.

Lemma returns_update_self f : returns (update_self f).
Proof. apply returns_modify. Qed.

(** *** The counters *)

Lemma count_extractions_lookup cookies counts i :
  count_extractions cookies counts !! i
  = count_if_extracted cookies i <$> counts !! i.
Proof.
  unfold count_extractions. revert i.
  apply (map_fold_weak_ind (fun r m =>
    forall i, r !! i = count_if_extracted m i <$> counts !! i)).
  - intros i. unfold count_if_extracted. rewrite lookup_empty.
    rewrite bool_decide_eq_false_2 by (by intros [? ?]).
    by destruct (counts !! i).
  - intros k c m r Hk IH i. unfold count_if_extracted in *.
    destruct (decide (i = k)) as [->|Hne].
    + rewrite lookup_insert_eq.
      rewrite (bool_decide_eq_true_2 (is_Some (Some c))) by (by eexists).
      pose proof (IH k) as IHk. rewrite Hk in IHk.
      rewrite bool_decide_eq_false_2 in IHk by (by intros [? ?]).
      case_bool_decide as Hr.
      * rewrite lookup_alter_eq, IHk. by destruct (counts !! k).
      * rewrite IHk in Hr |- *. destruct (counts !! k); [|done].
        destruct Hr. by eexists.
    + rewrite lookup_insert_ne by done.
      case_bool_decide; [rewrite lookup_alter_ne by done|]; apply IH.
Qed.

Lemma count_extractions_le cookies counts :
  counters_le counts (count_extractions cookies counts).
Proof.
  intros i n Hi. rewrite count_extractions_lookup, Hi. simpl.
  eexists. split; [done|]. unfold count_if_extracted. case_bool_decide; lia.
Qed.

Lemma count_emails_le results counts :
  counters_le counts (count_emails results counts).
Proof.
  unfold count_emails.
  apply (map_fold_weak_ind (fun r (_ : gmap string (list string)) =>
                              counters_le counts r)).
  - reflexivity.
  - intros k emails m r _ IH. etransitivity; [apply IH|].
    case_bool_decide; [|reflexivity].
    intros i n Hi. destruct (decide (i = k)) as [->|Hne].
    + rewrite lookup_alter_eq, Hi. simpl. eexists. split; [done | lia].
    + rewrite lookup_alter_ne by done. exists n. split; [done | lia].
Qed.

(** *** What the methods leave in place *)

(** A relation [Q] on the scheduler object is kept by a method as soon as
    the assignments that the method makes keep it. *)
Section Frame.

Context (Q : TaskScheduler -> TaskScheduler -> Prop) `{!PreOrder Q}.

Hypothesis Q_last_extraction : forall t x, Q t (set_last_extraction x t).
Hypothesis Q_next_scheduled : forall t x, Q t (set_next_scheduled x t).
Hypothesis Q_running : forall t b, Q t (set_running b t).
Hypothesis Q_scheduler_thread : forall t th, Q t (set_scheduler_thread th t).
Hypothesis Q_extraction_counts : forall t cookies,
  Q t (set_extraction_counts
         (count_extractions cookies (extraction_counts t)) t).
Hypothesis Q_emails_generated : forall t results,
  Q t (set_emails_generated (count_emails results (emails_generated t)) t).

Ltac frame :=
  repeat first
    [ solve [auto with frame nocore]
    | apply preserves_ret | apply preserves_raise | apply preserves_gets
    | apply preserves_bind | apply preserves_try_except
    | apply preserves_for_each | apply preserves_in_world
    | apply preserves_update_self
    | match goal with
      | |- PreOrder _ => apply _
      | |- Reflexive _ => apply _
      | |- forall _, _ => intros ?
      end
    | case_match ].

Lemma extract_cookies_job_frame :
  preserves (self_rel Q) (extract_cookies_job E).
Proof. unfold extract_cookies_job, extract_cookies_job_try. frame. Qed.

Lemma generate_emails_job_frame :
  preserves (self_rel Q) (generate_emails_job E).
Proof. unfold generate_emails_job, generate_emails_job_try. frame. Qed.

#[local] Hint Resolve extract_cookies_job_frame generate_emails_job_frame
  : frame.

Lemma run_pending_frame : preserves (self_rel Q) (run_pending E).
Proof. unfold run_pending, run_job. frame. Qed.

Lemma schedule_jobs_frame : preserves (self_rel Q) schedule_jobs.
Proof. unfold schedule_jobs. frame. Qed.

Lemma run_now_frame : preserves (self_rel Q) (run_now E).
Proof. unfold run_now. frame. Qed.

Lemma get_status_frame : preserves (self_rel Q) get_status.
Proof. unfold get_status. frame. Qed.

Lemma thread_join_frame timeout :
  preserves (self_rel Q) (thread_join E timeout).
Proof. unfold thread_join. frame. Qed.

#[local] Hint Resolve run_pending_frame schedule_jobs_frame run_now_frame
  get_status_frame thread_join_frame : frame.

Lemma start_frame : preserves (self_rel Q) (start E).
Proof. unfold start. frame. Qed.

Lemma stop_frame : preserves (self_rel Q) (stop E).
Proof. unfold stop. frame. Qed.

Lemma run_scheduler_step_frame : preserves (self_rel Q) (run_scheduler_step E).
Proof. unfold run_scheduler_step. frame. Qed.

#[local] Hint Resolve start_frame stop_frame run_scheduler_step_frame : frame.

Lemma run_op_frame o : preserves (self_rel Q) (run_op E o).
Proof. destruct o; simpl; frame. Qed.

End Frame.

(** *** The jobs never raise *)

Ltac returning :=
  repeat first
    [ solve [auto with returns nocore]
    | apply returns_ret | apply returns_gets | apply returns_modify
    | apply returns_bind | apply returns_try_except
    | apply returns_in_world | apply returns_update_self
    | match goal with |- forall _, _ => intros ? end ].

Lemma extract_cookies_job_returns : returns (extract_cookies_job E).
Proof. unfold extract_cookies_job. returning. Qed.

Lemma generate_emails_job_returns : returns (generate_emails_job E).
Proof. unfold generate_emails_job. returning. Qed.

#[local] Hint Resolve extract_cookies_job_returns generate_emails_job_returns
  : returns.

Lemma run_now_returns : returns (run_now E).
Proof. unfold run_now. returning. Qed.




(** *** The counters only grow *)

Lemma run_op_counters o : preserves counters_grow (run_op E o).
Proof.
  apply run_op_frame; [apply _|..]; intros t ?; split; simpl;
    auto using count_extractions_le, count_emails_le; reflexivity.
Qed.

Lemma step_counters o s : counters_grow s (step E o s).
Proof.
  unfold step. destruct (run_op E o s) as [r s'] eqn:H.
  by eapply run_op_counters.
Qed.

(** C8. No method call and no step of the background thread lowers the
    extraction count or the generated-address count of any profile or
    drops a profile from the counters, and so no sequence of them does. *)
Theorem counters_never_decrease :
  (forall o s, counters_grow s (step E o s))
  /\ (forall ops s, counters_grow s (run_ops E ops s)).
Proof.
  split; [apply step_counters|].
  induction ops as [|o ops IH]; intros s; simpl.
  - reflexivity.
  - etransitivity; [apply step_counters | apply IH].
Qed.

(** *** What the extraction job counts *)

Lemma extract_profile_nonempty profile acc w res w' :
  extract_profile E profile acc w = (Ok res, w') ->
  (forall i c, acc !! i = Some c -> c ≠ ∅) ->
  forall i c, res !! i = Some c -> c ≠ ∅.
Proof.
  unfold extract_profile. intros H Hacc.
  destruct (negb _); [by injection H as <- _|].
  apply bind_ok in H as (cookies & w1 & _ & H).
  destruct (truthy_cookies cookies) eqn:Hc; [|by injection H as <- _].
  apply bind_ok in H as (b & w2 & _ & [= <- _]).
  intros i c.
  destruct (decide (i = get_default (profile_id profile) "")) as [->|].
  - rewrite lookup_insert_eq. intros [= <-].
    by apply bool_decide_eq_true in Hc.
  - rewrite lookup_insert_ne by done. apply Hacc.
Qed.

Lemma extract_all_profiles_cookies_nonempty config w res w' :
  extract_all_profiles_cookies E config w = (Ok res, w') ->
  forall i c, res !! i = Some c -> c ≠ ∅.
Proof.
  unfold extract_all_profiles_cookies.
  assert (forall i c, (∅ : gmap string Cookies) !! i = Some c -> c ≠ ∅) as H0
    by (intros i c; by rewrite lookup_empty).
  revert H0. generalize (∅ : gmap string Cookies). revert w.
  induction (profiles config) as [|p ps IH]; intros w acc Hacc H.
  - by injection H as <- _.
  - simpl in H. apply bind_ok in H as (acc1 & w1 & H1 & H).
    eapply IH; [|done]. by eapply extract_profile_nonempty.
Qed.

Lemma extract_cookies_job_counts s :
  exists cookies s',
    extract_cookies_job E s = (Ok cookies, s')
    /\ extraction_counts (self s')
       = count_extractions cookies (extraction_counts (self s))
    /\ (forall i c, cookies !! i = Some c -> c ≠ ∅).
Proof.
  unfold extract_cookies_job, extract_cookies_job_try, try_except, bind,
    in_world, time_time, gets, update_self, modify, ret. simpl.
  destruct (extract_all_profiles_cookies E _ _) as [[cookies|e] w1] eqn:H.
  - eexists _, _. split_and!; [done..|].
    by eapply extract_all_profiles_cookies_nonempty.
  - eexists _, _. split_and!; [done| |by intros i c; rewrite lookup_empty].
    unfold count_extractions. by rewrite map_fold_empty.
Qed.

(** C2, as the code has it. After [run_now] the extraction count of a
    profile is one more than before when the extraction job returned
    cookies for it, and as before otherwise; the job returns cookies only
    for profiles whose extraction yielded a non-empty cookie set. *)
Theorem run_now_extraction_counts s :
  exists cookies s1,
    extract_cookies_job E s = (Ok cookies, s1)
    /\ (forall i c, cookies !! i = Some c -> c ≠ ∅)
    /\ forall i,
         extraction_counts (self (run_now E s).2) !! i
         = count_if_extracted cookies i <$> extraction_counts (self s) !! i.
Proof.
  destruct (extract_cookies_job_counts s) as (cookies & s1 & H1 & Hc & Hne).
  exists cookies, s1. split_and!; [done..|]. intros i.
  destruct (generate_emails_job_returns s1) as (emails & s2 & H2).
  assert (extraction_counts (self s2) = extraction_counts (self s1)) as Hk.
  { by apply (generate_emails_job_frame
                (fun t t' => extraction_counts t' = extraction_counts t)
                (fun _ _ => eq_refl) _ _ _ H2). }
  unfold run_now. rewrite (bind_run _ _ _ _ _ H1), (bind_run _ _ _ _ _ H2).
  simpl. by rewrite Hk, Hc, count_extractions_lookup.
Qed.

(** *** The status *)

Lemma get_status_unchanged s : exists st, get_status s = (Ok st, s).
Proof.
  eexists. unfold get_status, bind, gets, in_world, time_time, ret. simpl.
  by destruct s.
Qed.


(** *** Starting and stopping *)

Lemma start_alive s :
  is_alive (scheduler_thread (self s)) = true -> start E s = (Ok false, s).
Proof. intros H. unfold start, bind, gets, ret. simpl. by rewrite H. Qed.

Lemma stop_not_running s :
  running (self s) = false -> stop E s = (Ok false, s).
Proof. intros H. unfold stop, bind, gets, ret. simpl. by rewrite H. Qed.

Lemma extract_cookies_job_control :
  preserves same_control (extract_cookies_job E).
Proof. by apply extract_cookies_job_frame; [apply _|..]. Qed.

Lemma schedule_jobs_control : preserves same_control schedule_jobs.
Proof. by apply schedule_jobs_frame; [apply _|..]. Qed.

Lemma run_now_control : preserves same_control (run_now E).
Proof. by apply run_now_frame; [apply _|..]. Qed.

Lemma run_pending_control : preserves same_control (run_pending E).
Proof. by apply run_pending_frame; [apply _|..]. Qed.

Lemma thread_join_running timeout :
  preserves (keeps running) (thread_join E timeout).
Proof. by apply thread_join_frame; [apply _|..]. Qed.

Lemma same_control_invariant s s' :
  same_control s s' -> running_has_thread s -> running_has_thread s'.
Proof.
  unfold running_has_thread. intros [Hr Hth] H Hr'.
  rewrite Hth. apply H. congruence.
Qed.

Lemma start_invariant s r s' :
  start E s = (r, s') -> running_has_thread s -> running_has_thread s'.
Proof.
  intros H Hinv.
  destruct (is_alive (scheduler_thread (self s))) eqn:Halive.
  - rewrite start_alive in H by done. by injection H as _ <-.
  - assert (running (self s) = false) as Hr.
    { destruct (running (self s)) eqn:Hr0; [|done].
      rewrite (Hinv Hr0) in Halive. discriminate. }
    assert (running (self s') = false) as Hr'; [|by intros ?; congruence].
    revert H. unfold start, bind at 1, gets. simpl. rewrite Halive.
    unfold bind.
    destruct (schedule_jobs s) as [[[]|e] s1] eqn:H1;
      [|intros [= _ <-]; by destruct (schedule_jobs_control _ _ _ H1) as [-> _]].
    destruct (extract_cookies_job E s1) as [[c|e] s2] eqn:H2;
      destruct (schedule_jobs_control _ _ _ H1) as [Hr1 _];
      destruct (extract_cookies_job_control _ _ _ H2) as [Hr2 _];
      intros [= _ <-]; simpl; congruence.
Qed.

Lemma stop_leaves_stopped s r s' :
  stop E s = (r, s') -> running (self s') = false.
Proof.
  destruct (running (self s)) eqn:Hr.
  - unfold stop, bind at 1, gets. simpl. rewrite Hr. simpl.
    unfold bind at 1, update_self at 1, modify. simpl. unfold bind.
    destruct (thread_join E 5 _) as [[[]|e] s1] eqn:Hj;
      intros [= _ <-]; by rewrite (thread_join_running _ _ _ _ Hj).
  - rewrite stop_not_running by done. by intros [= _ <-].
Qed.

Lemma run_scheduler_step_invariant s r s' :
  run_scheduler_step E s = (r, s') ->
  running_has_thread s -> running_has_thread s'.
Proof.
  unfold run_scheduler_step, bind at 1, gets. simpl.
  destruct (scheduler_thread (self s)) as [[| |]|] eqn:Hth.
  - intros [= _ <-] _. done.
  - unfold bind at 1. simpl. destruct (running (self s)) eqn:Hr.
    + intros H. apply same_control_invariant.
      revert H. unfold bind.
      destruct (run_pending E s) as [[[]|e] s1] eqn:H1.
      * unfold in_world. destruct (time_sleep E 1 (world s1)) as [r2 w2].
        intros [= _ <-].
        destruct (run_pending_control _ _ _ H1) as [? ?]. by split.
      * intros [= _ <-]. by apply (run_pending_control _ _ _ H1).
    + intros [= _ <-] _. unfold running_has_thread. simpl. congruence.
  - intros [= _ <-]. done.
  - intros [= _ <-]. done.
Qed.

Lemma step_invariant o s :
  running_has_thread s -> running_has_thread (step E o s).
Proof.
  unfold step. destruct (run_op E o s) as [r s'] eqn:H. simpl.
  destruct o; simpl in H.
  - unfold bind in H. destruct (start E s) as [[b|e] s1] eqn:H1;
      injection H as _ <-; by eapply start_invariant.
  - unfold bind in H. destruct (stop E s) as [[b|e] s1] eqn:H1;
      injection H as _ <-; intros _ Hr;
      by rewrite (stop_leaves_stopped _ _ _ H1) in Hr.
  - unfold bind in H. destruct (run_now E s) as [[b|e] s1] eqn:H1;
      injection H as _ <-;
      by apply same_control_invariant, (run_now_control _ _ _ H1).
  - destruct (get_status_unchanged s) as (st & Hst).
    unfold bind in H. rewrite Hst in H. by injection H as _ <-.
  - by eapply run_scheduler_step_invariant.
Qed.

Lemma reachable_invariant c w s :
  reachable E c w s -> running_has_thread s.
Proof.
  intros [ops ->].
  assert (running_has_thread (mkSystem (new_scheduler c) w)) as H0 by done.
  revert H0. generalize (mkSystem (new_scheduler c) w).
  induction ops as [|o ops IH]; intros s H0; simpl; [done|].
  by apply IH, step_invariant.
Qed.

(** C5. In every state a scheduler can reach, [start] returns [False]
    and changes nothing when the scheduler is running (its thread is alive,
    or [self.running] is true), and [stop] returns [False] and changes
    nothing when [self.running] is false, which therefore stays false.
    Neither raises. *)
Theorem invalid_transitions_return_false c w s :
  reachable E c w s ->
  (running (self s) = true \/ is_alive (scheduler_thread (self s)) = true ->
   start E s = (Ok false, s))
  /\ (running (self s) = false ->
      stop E s = (Ok false, s) /\ running (self (stop E s).2) = false).
Proof.
  intros Hreach. split.
  - intros [Hr|Halive]; apply start_alive; [|done].
    by rewrite (reachable_invariant _ _ _ Hreach Hr).
  - intros Hr. rewrite stop_not_running by done. done.
Qed.

(** *** What the methods leave in place in the world *)

#[local] Instance same_jobs_preorder : PreOrder same_jobs.
Proof. split; [done|]. intros w1 w2 w3. unfold same_jobs. congruence. Qed.

#[local] Instance jobs_grow_preorder : PreOrder jobs_grow.
Proof.
  split.
  - intros w. unfold jobs_grow. reflexivity.
  - intros w1 w2 w3. unfold jobs_grow. by etransitivity.
Qed.

#[local] Instance world_rel_preorder R `{!PreOrder R} : PreOrder (world_rel R).
Proof.
  split.
  - intros s. unfold world_rel. reflexivity.
  - intros s1 s2 s3. unfold world_rel. by etransitivity.
Qed.

Lemma preserves_in_world_rel R {A} (m : M World A) :
  preserves R m -> preserves (world_rel R) (in_world m).
Proof.
  intros Hm s r s'. unfold in_world.
  destruct (m (world s)) as [r1 w1] eqn:H. intros [= _ <-].
  unfold world_rel. simpl. by eapply Hm.
Qed.

Lemma preserves_update_self_world R `{!Reflexive R} f :
  preserves (world_rel R) (update_self f).
Proof. intros s r s' [= _ <-]. unfold world_rel. simpl. reflexivity. Qed.

(** A relation [R] on the world is kept by a method as soon as it is kept
    by the passing of time, by writes under [sessions/] and of temporary
    files, and by the record of a call. *)
Section WorldFrame.

Context (R : World -> World -> Prop) `{!PreOrder R}.

Hypothesis R_clock : forall w t, R w (set_clock t w).
Hypothesis R_sessions : forall w f, R w (set_sessions f w).
Hypothesis R_temp : forall w f, R w (set_temp f w).
Hypothesis R_event : forall w e, R w (record_event e w).

Ltac wframe :=
  repeat first
    [ solve [auto with wframe nocore]
    | apply preserves_ret | apply preserves_raise | apply preserves_gets
    | apply preserves_bind | apply preserves_try_except
    | apply preserves_try_finally
    | apply preserves_for_each | apply preserves_for_fold
    | apply preserves_in_world_rel
    | apply preserves_update_self_world
    | apply preserves_modify; intros ?;
      first [apply R_clock | apply R_sessions | apply R_temp | apply R_event]
    | match goal with
      | |- PreOrder _ => apply _
      | |- Reflexive _ => apply _
      | |- forall _, _ => intros ?
      end
    | case_match ].

Lemma generate_email_wframe profile_id label :
  preserves R (generate_email E profile_id label).
Proof.
  intros w r w'. unfold generate_email.
  destruct (generate_email_body E profile_id label w) as [r1 w1] eqn:Hb.
  intros [= _ <-]. transitivity w1; [|apply R_event].
  revert w r1 w1 Hb.
  change (preserves R (generate_email_body E profile_id label)).
  unfold generate_email_body, load_session, write_cookie_file,
    subprocess_run, remove_cookie_file, elapse.
  wframe.
Qed.

#[local] Hint Resolve generate_email_wframe : wframe.

Lemma generate_batch_wframe ids n label_prefix :
  preserves R (generate_batch E ids n label_prefix).
Proof.
  unfold generate_batch, generate_batch_profile, generate_batch_call,
    time_time, time_sleep, elapse.
  wframe.
Qed.

Lemma extract_all_profiles_cookies_wframe c :
  preserves R (extract_all_profiles_cookies E c).
Proof.
  unfold extract_all_profiles_cookies, extract_profile,
    extract_cookies_from_profile, save_session, time_time, elapse.
  wframe.
Qed.

Lemma time_sleep_wframe d : preserves R (time_sleep E d).
Proof. unfold time_sleep, elapse. wframe. Qed.

Lemma time_time_wframe : preserves R time_time.
Proof. unfold time_time. wframe. Qed.

Lemma elapse_wframe : preserves R (elapse E).
Proof. unfold elapse. wframe. Qed.

#[local] Hint Resolve generate_batch_wframe extract_all_profiles_cookies_wframe
  time_sleep_wframe time_time_wframe elapse_wframe : wframe.

Lemma extract_cookies_job_wframe :
  preserves (world_rel R) (extract_cookies_job E).
Proof. unfold extract_cookies_job, extract_cookies_job_try. wframe. Qed.

Lemma generate_emails_job_wframe :
  preserves (world_rel R) (generate_emails_job E).
Proof. unfold generate_emails_job, generate_emails_job_try. wframe. Qed.

#[local] Hint Resolve extract_cookies_job_wframe generate_emails_job_wframe
  : wframe.

Lemma run_now_wframe : preserves (world_rel R) (run_now E).
Proof. unfold run_now. wframe. Qed.

Lemma get_status_wframe : preserves (world_rel R) get_status.
Proof. unfold get_status. wframe. Qed.

Lemma stop_wframe : preserves (world_rel R) (stop E).
Proof. unfold stop, thread_join. wframe. Qed.

#[local] Hint Resolve run_now_wframe get_status_wframe stop_wframe : wframe.

(** With the registration and the rescheduling of a job added, so are the
    remaining methods and the steps of the background thread. *)
Hypothesis R_register : forall w j, R w (set_jobs (w_jobs w ++ [j])%list w).
Hypothesis R_reschedule : forall w i (next : Job -> Qc),
  R w (set_jobs (alter (fun j => mkJob (job_func j) (job_interval_minutes j)
                                       (next j))
                       i (w_jobs w)) w).

Lemma schedule_jobs_wframe : preserves (world_rel R) schedule_jobs.
Proof.
  unfold schedule_jobs, schedule_every_minutes. wframe.
  all: apply preserves_modify; intros ?; apply R_register.
Qed.

Lemma run_pending_wframe : preserves (world_rel R) (run_pending E).
Proof.
  unfold run_pending, run_job, schedule_next_run. wframe.
  all: apply preserves_modify; intros w;
    apply (R_reschedule w _
             (fun j => (_ + Qc_of_Z (job_interval_minutes j * 60))%Qc)).
Qed.

#[local] Hint Resolve schedule_jobs_wframe run_pending_wframe : wframe.

Lemma run_op_wframe o : preserves (world_rel R) (run_op E o).
Proof.
  destruct o; simpl; unfold start, run_scheduler_step; wframe.
Qed.

End WorldFrame.

(** *** The registry of jobs *)

Lemma map_job_func_alter (next : Job -> Qc) i (jobs : list Job) :
  map job_func
      (alter (fun j => mkJob (job_func j) (job_interval_minutes j) (next j))
             i jobs)
  = map job_func jobs.
Proof.
  revert i. induction jobs as [|j jobs IH]; intros [|i]; simpl; try done.
  f_equal. apply IH.
Qed.

Lemma run_op_jobs o : preserves (world_rel jobs_grow) (run_op E o).
Proof.
  apply run_op_wframe; [apply _|..]; intros w; intros; unfold jobs_grow; simpl;
    try reflexivity.
  - rewrite map_app. by apply prefix_app_r.
  - by rewrite map_job_func_alter.
Qed.

Lemma step_jobs o s : jobs_grow (world s) (world (step E o s)).
Proof.
  unfold step. destruct (run_op E o s) as [r s'] eqn:H.
  by apply run_op_jobs in H.
Qed.

Lemma stop_jobs : preserves (world_rel same_jobs) (stop E).
Proof. by apply stop_wframe; [apply _|..]. Qed.

Lemma run_now_jobs : preserves (world_rel same_jobs) (run_now E).
Proof. by apply run_now_wframe; [apply _|..]. Qed.

Lemma extract_cookies_job_jobs :
  preserves (world_rel same_jobs) (extract_cookies_job E).
Proof. by apply extract_cookies_job_wframe; [apply _|..]. Qed.

(** X15. Nothing ever takes a job out of the registry of the [schedule]
    library: after any method call or step of the background thread, and
    so after any sequence of them, the registry holds the jobs it held
    before, in their order. [stop] in particular leaves the registry
    exactly as it is, whether it returns or raises. *)
Theorem jobs_never_unregistered :
  (forall ops s, jobs_grow (world s) (world (run_ops E ops s)))
  /\ (forall s, w_jobs (world (stop E s).2) = w_jobs (world s)).
Proof.
  split.
  - induction ops as [|o ops IH]; intros s; simpl.
    + reflexivity.
    + etransitivity; [apply step_jobs | apply IH].
  - intros s. destruct (stop E s) as [r s'] eqn:H.
    by apply stop_jobs in H.
Qed.

Lemma schedule_jobs_run s :
  exists s1,
    schedule_jobs s = (Ok tt, s1)
    /\ w_jobs (world s1)
       = (w_jobs (world s)
          ++ new_jobs (get_default (refresh_interval_minutes (config (self s)))
                                   60%Z)
                      (w_clock (world s)))%list
    /\ scheduler_thread (self s1) = scheduler_thread (self s)
    /\ running (self s1) = running (self s).
Proof.
  eexists. split.
  - unfold schedule_jobs, bind, gets, in_world, schedule_every_minutes,
      time_time, modify, update_self. simpl. reflexivity.
  - simpl. by rewrite <-app_assoc.
Qed.

(** X16. Every [start] that returns [True] adds the two jobs to the
    registry again, due one interval after the time of the call: a
    scheduler that is stopped and started again has each job registered
    once more than before. *)
Theorem start_registers_jobs s s' :
  start E s = (Ok true, s') ->
  w_jobs (world s')
  = (w_jobs (world s)
     ++ new_jobs (get_default (refresh_interval_minutes (config (self s)))
                              60%Z)
                 (w_clock (world s)))%list.
Proof.
  unfold start, bind at 1, gets. simpl.
  destruct (is_alive (scheduler_thread (self s))); [intros [=]|].
  destruct (schedule_jobs_run s) as (s1 & H1 & Hj & _).
  rewrite (bind_run _ _ _ _ _ H1). intros H.
  apply bind_ok in H as (c & s2 & H2 & H).
  apply extract_cookies_job_jobs in H2. injection H as <-. simpl.
  unfold world_rel, same_jobs in H2. by rewrite H2, Hj.
Qed.

(** X17. [run_now] runs the two jobs without touching the schedule: the
    registry, with the due time of every job in it, is as before, and so
    are [self.running] and the thread, whatever the jobs did. The jobs that
    are registered stay due at their old times although [next_scheduled]
    is moved. *)
Theorem run_now_keeps_schedule s :
  w_jobs (world (run_now E s).2) = w_jobs (world s)
  /\ running (self (run_now E s).2) = running (self s)
  /\ scheduler_thread (self (run_now E s).2) = scheduler_thread (self s).
Proof.
  destruct (run_now E s) as [r s'] eqn:H. simpl.
  pose proof (run_now_jobs _ _ _ H) as Hj.
  by destruct (run_now_control _ _ _ H) as [Hr Hth].
Qed.

(** *** The counters of the configured profiles *)

Lemma new_counters_lookup (ids : list string) :
  forall (m : gmap string Z) i,
    foldl (fun m i => <[i := 0%Z]> m) m ids !! i
    = if decide (i ∈ ids) then Some 0%Z else m !! i.
Proof.
  induction ids as [|q ids IH]; intros m i; simpl.
  - destruct (decide (i ∈ [])) as [Hi|Hi]; [by apply elem_of_nil in Hi | done].
  - rewrite IH.
    destruct (decide (i ∈ ids)) as [Hi|Hi],
      (decide (i ∈ q :: ids)) as [Hq|Hq]; try done.
    + exfalso. apply Hq. by right.
    + apply elem_of_cons in Hq as [->|?]; [apply lookup_insert_eq | done].
    + apply lookup_insert_ne. intros ->. apply Hq. left.
Qed.

Lemma count_emails_lookup results counts i :
  count_emails results counts !! i
  = (fun n => (n + generated_for results i)%Z) <$> counts !! i.
Proof.
  unfold count_emails, generated_for. revert i.
  apply (map_fold_weak_ind (fun r m =>
    forall i, r !! i = (fun n => (n + Z.of_nat (length (default [] (m !! i))))%Z)
                       <$> counts !! i)).
  - intros i. rewrite lookup_empty. simpl.
    destruct (counts !! i); simpl; [f_equal; lia | done].
  - intros k emails m r Hk IH i.
    destruct (decide (i = k)) as [->|Hne].
    + rewrite lookup_insert_eq. simpl.
      pose proof (IH k) as IHk. rewrite Hk in IHk. simpl in IHk.
      case_bool_decide as Hr.
      * rewrite lookup_alter_eq, IHk.
        destruct (counts !! k); simpl; [f_equal; lia | done].
      * rewrite IHk in Hr |- *. destruct (counts !! k); [|done].
        destruct Hr. by eexists.
    + rewrite lookup_insert_ne by done.
      case_bool_decide; [rewrite lookup_alter_ne by done|]; apply IH.
Qed.

#[local] Instance same_keys_preorder : PreOrder same_keys.
Proof.
  split.
  - intros t. by split_and!.
  - intros t1 t2 t3 (H1 & H2 & H3 & H4) (H1' & H2' & H3' & H4').
    split_and!; [| |congruence..].
    + intros i. by rewrite H1'.
    + intros i. by rewrite H2'.
Qed.

Lemma run_op_keys o : preserves (self_rel same_keys) (run_op E o).
Proof.
  apply run_op_frame; [apply _|..]; intros t ?; split_and!; simpl;
    try done; intros i.
  - by rewrite count_extractions_lookup, fmap_is_Some.
  - by rewrite count_emails_lookup, fmap_is_Some.
Qed.

Lemma run_ops_invariants ops :
  forall s, self_rel same_keys s (run_ops E ops s)
            /\ counters_grow s (run_ops E ops s).
Proof.
  induction ops as [|o ops IH]; intros s; simpl.
  - split; reflexivity.
  - destruct (IH (step E o s)) as [Hk Hg].
    split; (etransitivity; [|done]).
    + unfold step. destruct (run_op E o s) as [r s'] eqn:H.
      by apply run_op_keys in H.
    + apply step_counters.
Qed.

(** X18. In every state a scheduler can reach, each of the two counter
    maps has a count for exactly the configured profile ids that are
    non-empty strings, and no count is below zero; the configuration the
    scheduler and its extractor were built from is never changed. No
    counter is ever made for an id that the configuration does not list. *)
Theorem reachable_counters c w s :
  reachable E c w s ->
  counters_for c (emails_generated (self s))
  /\ counters_for c (extraction_counts (self s))
  /\ config (self s) = c
  /\ cookie_extractor (self s) = c.
Proof.
  intros [ops ->].
  destruct (run_ops_invariants ops (mkSystem (new_scheduler c) w))
    as [(Hk1 & Hk2 & Hc1 & Hc2) [Hg1 Hg2]].
  simpl in *.
  assert (forall m m' : gmap string Z,
            m = foldl (fun m i => <[i := 0%Z]> m) ∅ (configured_ids c) ->
            (forall i, is_Some (m' !! i) <-> is_Some (m !! i)) ->
            counters_le m m' -> counters_for c m') as Hfor.
  { intros m m' -> Hkeys Hle. split.
    - intros i. rewrite Hkeys, new_counters_lookup, lookup_empty.
      destruct (decide (i ∈ configured_ids c)) as [Hi|Hi].
      + split; [done | by eexists].
      + split; [by intros [? ?] | done].
    - intros i n Hi.
      assert (is_Some (foldl (fun m i => <[i := 0%Z]> m) ∅ (configured_ids c)
                       !! i)) as [n0 Hn0] by (apply Hkeys; by eexists).
      destruct (Hle _ _ Hn0) as (n' & Hn' & Hle').
      rewrite new_counters_lookup, lookup_empty in Hn0.
      destruct (decide (i ∈ configured_ids c)); [|done].
      injection Hn0 as <-. rewrite Hi in Hn'. injection Hn' as <-. done. }
  split_and!; [by eapply Hfor | by eapply Hfor | done | done].
Qed.

Lemma generate_batch_result_bound ids n label_prefix w res w' p l :
  generate_batch E ids n label_prefix w = (Ok res, w') ->
  res !! p = Some l -> length l <= Z.to_nat n.
Proof.
  intros H Hl.
  assert (p ∈ ids) as (ids1 & ids2 & -> & Hp)%list_elem_of_split_r.
  { destruct (proj1 (generate_batch_fold_keys _ _ _ _ _ _ _ _ H p))
      as [?|[? Hx]]; [by eexists | done | by rewrite lookup_empty in Hx]. }
  apply generate_batch_split in H
    as (res1 & w1 & tr2 & tr3 & _ & _ & Hall & _ & Hres).
  rewrite (Hres Hp) in Hl. injection Hl as <-.
  apply Forall2_length in Hall. rewrite length_seqZ in Hall.
  pose proof (emails_of_le (gen_calls tr2)). lia.
Qed.

(** X19. [generate_emails_job] always returns, and it raises the count of
    every counted profile by the number of addresses its result holds for
    that profile (by nothing when the batch raised and the result is
    empty), which is never more than the hourly limit of the
    configuration. *)
Theorem generate_emails_job_counts s :
  exists results s',
    generate_emails_job E s = (Ok results, s')
    /\ (forall i, emails_generated (self s') !! i
                  = (fun n => (n + generated_for results i)%Z)
                    <$> emails_generated (self s) !! i)
    /\ (forall i, (0 <= generated_for results i
                   <= Z.max 0 (get_default
                                 (email_limit_per_hour (config (self s))) 5))%Z).
Proof.
  unfold generate_emails_job, generate_emails_job_try, try_except, bind,
    in_world, gets, update_self, modify, ret. simpl.
  destruct (generate_batch E _ _ _ _) as [[results|e] w1] eqn:H.
  - eexists _, _. split_and!; [done| |].
    + intros i. simpl. apply count_emails_lookup.
    + intros i. unfold generated_for.
      destruct (results !! i) as [l|] eqn:Hl; simpl; [|lia].
      pose proof (generate_batch_result_bound _ _ _ _ _ _ _ _ H Hl). lia.
  - eexists _, _. split_and!; [done| |].
    + intros i. unfold generated_for. rewrite lookup_empty. simpl.
      destruct (emails_generated (self s) !! i); simpl; [f_equal; lia | done].
    + intros i. unfold generated_for. rewrite lookup_empty. simpl. lia.
Qed.

(** *** Stopping and starting again *)

Lemma start_returns_true s :
  is_alive (scheduler_thread (self s)) = false ->
  exists s', start E s = (Ok true, s').
Proof.
  intros Halive. unfold start, bind at 1, gets. simpl. rewrite Halive.
  destruct (schedule_jobs_run s) as (s1 & H1 & _).
  rewrite (bind_run _ _ _ _ _ H1).
  destruct (extract_cookies_job_returns s1) as (c & s2 & H2).
  rewrite (bind_run _ _ _ _ _ H2). by eexists.
Qed.

(** X20. A scheduler that [stop] has stopped can be started again after
    the next step of its thread: in every reachable state in which [stop]
    returns [True], the thread has ended after its next step at the
    latest, even when [join] timed out; [self.running] is then false, and
    a call of [start] returns [True]. *)
Theorem stop_then_start c w s s1 :
  reachable E c w s ->
  stop E s = (Ok true, s1) ->
  scheduler_thread (self (step E Background s1)) = Some ThreadDead
  /\ running (self (step E Background s1)) = false
  /\ exists s3, start E (step E Background s1) = (Ok true, s3).
Proof.
  intros Hreach Hstop.
  destruct (running (self s)) eqn:Hr;
    [|by rewrite stop_not_running in Hstop].
  pose proof (reachable_invariant _ _ _ Hreach Hr) as Hth.
  assert (running (self s1) = false) as Hr1
    by (by eapply stop_leaves_stopped).
  assert (scheduler_thread (self s1) = Some ThreadLoop
          \/ scheduler_thread (self s1) = Some ThreadDead) as Hth1.
  { revert Hstop. unfold stop, thread_join, in_world, time_sleep, elapse,
      update_self, modify, gets, ret, bind. simpl. rewrite Hr. simpl.
    rewrite Hth.
    destruct (env_join E (world s)); simpl; intros [= <-]; simpl; auto. }
  assert (scheduler_thread (self (step E Background s1)) = Some ThreadDead
          /\ running (self (step E Background s1)) = false) as [Hth2 Hr2].
  { unfold step, run_op, run_scheduler_step, update_self, modify, gets, ret,
      bind. simpl.
    destruct Hth1 as [Hx|Hx]; rewrite Hx; simpl; rewrite ?Hr1; simpl;
      by rewrite ?Hx. }
  split_and!; [done..|]. apply start_returns_true. by rewrite Hth2.
Qed.

(** X21. [extract_cookies_job] stamps [last_extraction] with the time at
    which it began before it tries anything, and nothing in the job
    changes the stamp afterwards: the field tells when an extraction was
    last attempted, also when that attempt raised or found no cookies. *)
Theorem extract_cookies_job_last_extraction s :
  last_extraction (self (extract_cookies_job E s).2)
  = Some (w_clock (world s)).
Proof.
  unfold extract_cookies_job, bind at 1, in_world at 1, time_time, gets.
  simpl. unfold bind at 1, update_self at 1, modify. simpl.
  match goal with |- context [try_except ?m ?h ?s0] =>
    destruct (try_except m h s0) as [r s'] eqn:H end.
  assert (preserves (keeps last_extraction)
            (try_except (extract_cookies_job_try E)
               (fun _ => ret (∅ : gmap string Cookies)))) as Hkeep.
  { unfold extract_cookies_job_try.
    repeat first
      [ apply preserves_ret | apply preserves_gets | apply preserves_bind
      | apply preserves_try_except | apply preserves_in_world
      | apply preserves_update_self
      | match goal with
        | |- PreOrder _ => apply _
        | |- Reflexive _ => apply _
        | |- forall _, _ => intros ?
        end
      | done ]. }
  apply Hkeep in H. simpl. by rewrite H.
Qed.

(** *** A turn of the loop with nothing due *)

Lemma filter_not_due now (jobs : list Job) :
  Forall (fun j => (now < job_next_run j)%Qc) jobs ->
  forall f : nat -> Job -> nat * Job,
    (forall i j, (f i j).2 = j) ->
    List.filter (fun p => should_run now p.2) (imap f jobs) = [].
Proof.
  induction 1 as [|j jobs Hj _ IH]; intros f Hf; simpl; [done|].
  rewrite Hf. unfold should_run at 1.
  rewrite bool_decide_eq_false_2 by (by apply Qclt_not_le).
  apply IH. intros i j'. apply Hf.
Qed.

(** X25. A turn of the loop of [run_scheduler] in which no registered job
    is due runs nothing: the scheduler object is untouched (no counter, no
    stamp changes), and the world differs only by the second that the loop
    sleeps. *)
Theorem run_scheduler_step_idle s :
  scheduler_thread (self s) = Some ThreadLoop ->
  running (self s) = true ->
  Forall (fun j => (w_clock (world s) < job_next_run j)%Qc) (w_jobs (world s)) ->
  run_scheduler_step E s
  = (Ok tt, mkSystem (self s) (time_sleep E 1 (world s)).2).
Proof.
  intros Hth Hr Hdue.
  unfold run_scheduler_step, bind at 1, gets. simpl. rewrite Hth.
  unfold bind at 1. simpl. rewrite Hr.
  unfold run_pending, bind, in_world, time_time, gets. simpl.
  unfold runnable_jobs. rewrite (filter_not_due _ _ Hdue) by done.
  simpl. by destruct s.
Qed.

(** *** A scheduler without profiles *)


End Scheduler.

(** ** The concrete installation at work *)


(** The labels of the calls of that batch differ. *)
Lemma generate_batch_labels_witness :
  quota_run = (Ok (result_of ∅ quota_run), quota_run.2)
  /\ NoDup ["A"; "B"]
  /\ (2 <= 3)%Z
  /\ clock_monotone (example_env false)
  /\ NoDup (map call_label
              (calls_for "A" (gen_calls (new_trace cached_world quota_run.2))))
  /\ NoDup (map call_label (gen_calls (new_trace cached_world quota_run.2))).
Proof.
  assert (quota_run = (Ok (result_of ∅ quota_run), quota_run.2)) as H1
    by (vm_compute; reflexivity).
  assert (NoDup ["A"; "B"]) as H2 by compute_done.
  assert (2 <= 3)%Z as H3 by lia.
  assert (clock_monotone (example_env false)) as H4
    by (intros w; compute_done).
  pose proof (generate_batch_labels (example_env false) ["A"; "B"] 3 "Auto_"
                cached_world (result_of ∅ quota_run) quota_run.2 H1)
    as [Hsame Hall].
  exact (conj H1 (conj H2 (conj H3 (conj H4
           (conj (Hsame H2 "A") (Hall H3 H4)))))).
Defined.

(** A batch whose first call fails still makes all three calls. *)
Lemma generate_batch_calls_all_witness :
  failing_run = (Ok (result_of ∅ failing_run), failing_run.2)
  /\ map call_profile (gen_calls (new_trace cached_world failing_run.2))
     = ["A"] ≫= replicate (Z.to_nat 3).
Proof.
  assert (failing_run = (Ok (result_of ∅ failing_run), failing_run.2)) as H
    by (vm_compute; reflexivity).
  exact (conj H
           (generate_batch_calls_all (example_env true) ["A"] 3 "Auto_"
              cached_world (result_of ∅ failing_run) failing_run.2 H)).
Defined.

(** C3, as the specification has it, fails: the first call for [A] fails
    and two more calls for [A] follow in the same batch. *)
Lemma generate_batch_calls_after_failure :
  map (fun c => (call_profile c, succeeded c))
      (gen_calls (new_trace cached_world failing_run.2))
  = [("A", false); ("A", true); ("A", true)]
  /\ ~ stops_after_failure (gen_calls (new_trace cached_world failing_run.2)).
Proof.
  split; [by vm_compute|].
  assert (gen_calls (new_trace cached_world failing_run.2)
          = [ mkCall "A" (Some "Auto_1000_0") (Ok (false, None));
              mkCall "A" (Some "Auto_1002_1") (Ok (true, Some "a@icloud.com"));
              mkCall "A" (Some "Auto_1004_2") (Ok (true, Some "a@icloud.com")) ])
    as -> by (vm_compute; reflexivity).
  intros H.
  eapply (H 0 1); [reflexivity | reflexivity | lia | reflexivity | reflexivity].
Qed.

(** C6, as the specification has it, fails: with quota 1 the call for [A]
    and the call for [B] are made within the same second and carry the
    same label. *)
Lemma generate_batch_label_collision :
  map (fun c => (call_profile c, call_label c))
      (gen_calls (new_trace cached_world single_run.2))
  = [("A", Some "Auto_1000_0"); ("B", Some "Auto_1000_0")]
  /\ ~ labels_unique (gen_calls (new_trace cached_world single_run.2)).
Proof.
  split; [by vm_compute|]. unfold labels_unique.
  assert (map call_label (gen_calls (new_trace cached_world single_run.2))
          = [Some "Auto_1000_0"; Some "Auto_1000_0"])
    as -> by (vm_compute; reflexivity).
  intros [Hin _]%NoDup_cons. apply Hin. left.
Qed.

(** [A] is listed twice: the first pass yields one address, the second
    two, and the entry returned holds the two of the second pass. *)
Lemma generate_batch_last_pass_witness :
  ("A" ∉ ["B"])
  /\ repeated_run = (Ok (result_of ∅ repeated_run), repeated_run.2)
  /\ exists res1 w1,
       generate_batch (example_env true) ["A"] 2 "Auto_" cached_world
       = (Ok res1, w1)
       /\ result_of ∅ repeated_run !! "A"
          = Some (emails_of (calls_for "A"
                               (gen_calls (new_trace w1 repeated_run.2)))).
Proof.
  assert ("A" ∉ ["B"]) as H1 by compute_done.
  assert (repeated_run = (Ok (result_of ∅ repeated_run), repeated_run.2)) as H2
    by (vm_compute; reflexivity).
  exact (conj H1 (conj H2
           (generate_batch_last_pass (example_env true) ["A"] "A" ["B"] 2
              "Auto_" cached_world (result_of ∅ repeated_run) repeated_run.2
              H1 H2))).
Defined.

Example repeated_run_calls :
  map (fun c => (call_profile c, succeeded c))
      (gen_calls (new_trace cached_world repeated_run.2))
  = [("A", false); ("A", true); ("A", true); ("A", true);
     ("B", true); ("B", true)]
  /\ result_of ∅ repeated_run !! "A" = Some ["a@icloud.com"; "a@icloud.com"].
Proof. split; by vm_compute. Qed.

(** Two calls of [save_session] for [A], with different cookies. *)
Lemma save_session_load_session_witness :
  first_save = (Ok true, first_save.2)
  /\ second_save = (Ok true, second_save.2)
  /\ (true = true ->
      load_session "A" first_save.2
      = (Ok (Some (JsonDict (mkSession (Some example_cookies) (Some "A")
                                       (Some (int_of (w_clock fresh_world)))))),
         first_save.2))
  /\ load_session "A" second_save.2
     = (Ok (Some (JsonDict (mkSession (Some other_cookies) (Some "A")
                                      (Some (int_of (w_clock first_save.2)))))),
        second_save.2).
Proof.
  assert (first_save = (Ok true, first_save.2)) as H1
    by (vm_compute; reflexivity).
  assert (second_save = (Ok true, second_save.2)) as H2
    by (vm_compute; reflexivity).
  exact (conj H1 (conj H2
           (save_session_load_session (example_env false) "A" example_cookies
              other_cookies fresh_world true first_save.2 second_save.2
              H1 H2))).
Defined.

(** C2, as the specification has it, fails: the extraction for [B] is
    attempted and yields nothing, and the count of [B] stays at 0. *)
Lemma run_now_failed_extraction_not_counted :
  w_trace (world (run_now (example_env false) fresh_system).2) !! 1
  = Some (EvExtract (Some "B") "/chrome/B/Cookies")
  /\ extraction_counts (self fresh_system) !! "B" = Some 0%Z
  /\ extraction_counts (self (run_now (example_env false) fresh_system).2) !! "B"
     = Some 0%Z
  /\ extraction_counts (self (run_now (example_env false) fresh_system).2) !! "A"
     = Some 1%Z
  /\ ~ counts_every_attempt (example_env false) fresh_system.
Proof.
  split_and!; [by vm_compute | by vm_compute | by vm_compute | by vm_compute |].
  intros H. specialize (H "B").
  assert (extraction_counts
            (self (run_now (example_env false) fresh_system).2) !! "B"
          = Some 0%Z) as H1 by (by vm_compute).
  assert (extraction_counts (self fresh_system) !! "B" = Some 0%Z) as H0
    by (by vm_compute).
  rewrite H1, H0 in H. discriminate H. compute_done.
Qed.


(** After [start()] the scheduler is running and a second [start()]
    fails; before it, [stop()] fails. *)
Lemma invalid_transitions_return_false_witness :
  reachable (example_env false) example_config fresh_world started_system
  /\ running (self started_system) = true
  /\ start (example_env false) started_system = (Ok false, started_system)
  /\ reachable (example_env false) example_config fresh_world fresh_system
  /\ running (self fresh_system) = false
  /\ stop (example_env false) fresh_system = (Ok false, fresh_system).
Proof.
  assert (reachable (example_env false) example_config fresh_world
            started_system) as R1 by (by exists [CallStart; Background]).
  assert (reachable (example_env false) example_config fresh_world
            fresh_system) as R2 by (by exists []).
  assert (running (self started_system) = true) as H1
    by (vm_compute; reflexivity).
  assert (running (self fresh_system) = false) as H2
    by (vm_compute; reflexivity).
  exact (conj R1 (conj H1 (conj
           (proj1 (invalid_transitions_return_false (example_env false)
                     example_config fresh_world started_system R1)
                  (or_introl H1))
           (conj R2 (conj H2
              (proj1 (proj2 (invalid_transitions_return_false
                               (example_env false) example_config fresh_world
                               fresh_system R2) H2))))))).
Defined.

(** Both [try] blocks can raise, and the jobs then return the empty
    mapping: the extraction job when Chrome's directory may not be
    looked into, the generation job when a session file holds a list. *)
Example extract_cookies_job_catches :
  (extract_cookies_job_try denied_env
     (mkSystem (set_last_extraction (Some (w_clock fresh_world))
                                    (self fresh_system))
               fresh_world)).1
  = Raise PermissionError
  /\ (extract_cookies_job denied_env fresh_system).1 = Ok ∅.
Proof. split; by vm_compute. Qed.

Example generate_emails_job_catches :
  (generate_emails_job_try (example_env false) broken_system).1
  = Raise AttributeError
  /\ (generate_emails_job (example_env false) broken_system).1 = Ok ∅.
Proof. split; by vm_compute. Qed.

(** ** More of the installation at work *)

(** Without a session file for [A], a call for [A] does nothing. *)
Lemma generate_email_without_cookies_witness :
  lacks_cookies (w_sessions fresh_world !! session_path "A") = true
  /\ generate_email (example_env false) "A" None fresh_world
     = (Ok (false, None),
        record_event (EvGenerateEmail "A" None (Ok (false, None))) fresh_world).
Proof.
  assert (lacks_cookies (w_sessions fresh_world !! session_path "A") = true)
    as H1 by (vm_compute; reflexivity).
  exact (conj H1
           (generate_email_without_cookies (example_env false) "A" None
              fresh_world H1)).
Defined.


(** That call succeeds, with the address the generator printed. *)
Lemma generate_email_success_witness :
  cached_call = (Ok (true, Some "a@icloud.com"), cached_call.2)
  /\ lacks_cookies (w_sessions cached_world !! session_path "A") = false
  /\ env_write (example_env false) cached_world (cookie_file_of "A") = Written
  /\ (exists out err,
        env_subprocess (example_env false)
          (set_temp ({[cookie_file_of "A"]} ∪ w_temp cached_world) cached_world)
          (generator_command "A" (Some "first"))
        = ProcDone 0 out err
        /\ Some "a@icloud.com" = env_parse_email (example_env false) out)
  /\ truthy_email (Some "a@icloud.com") = true.
Proof.
  assert (cached_call = (Ok (true, Some "a@icloud.com"), cached_call.2)) as H1
    by (vm_compute; reflexivity).
  exact (conj H1
           (generate_email_success (example_env false) "A" (Some "first")
              cached_world (Some "a@icloud.com") cached_call.2 H1)).
Defined.

(** A batch of quota 0. *)
Lemma generate_batch_no_quota_witness :
  (0 <= 0)%Z
  /\ exists res,
       generate_batch (example_env false) ["A"; "B"] 0 "Auto_" cached_world
       = (Ok res, cached_world)
       /\ forall p, res !! p = if decide (p ∈ ["A"; "B"]) then Some [] else None.
Proof.
  assert (0 <= 0)%Z as H1 by lia.
  exact (conj H1
           (generate_batch_no_quota (example_env false) ["A"; "B"] 0 "Auto_"
              cached_world H1)).
Defined.

(** The result of the batch of quota 3 over [A] and [B]. *)
Lemma generate_batch_result_shape_witness :
  quota_run = (Ok (result_of ∅ quota_run), quota_run.2)
  /\ (forall p, is_Some (result_of ∅ quota_run !! p) <-> p ∈ ["A"; "B"])
  /\ (forall p l, result_of ∅ quota_run !! p = Some l ->
        length l <= Z.to_nat 3).
Proof.
  assert (quota_run = (Ok (result_of ∅ quota_run), quota_run.2)) as H1
    by (vm_compute; reflexivity).
  exact (conj H1
           (generate_batch_result_shape (example_env false) ["A"; "B"] 3
              "Auto_" cached_world (result_of ∅ quota_run) quota_run.2 H1)).
Defined.

(** A batch over [A] and [B] when only [A] has a session file. *)
Lemma generate_batch_without_cookies_witness :
  lacks_cookies (w_sessions half_cached_world !! session_path "B") = true
  /\ ("B" ∉ ([] : list string))
  /\ half_run = (Ok (result_of ∅ half_run), half_run.2)
  /\ result_of ∅ half_run !! "B" = Some []
  /\ exists res1 w1 res2 w2,
       generate_batch (example_env false) ["A"] 2 "Auto_" half_cached_world
       = (Ok res1, w1)
       /\ generate_batch_profile (example_env false) 2 "Auto_" "B" res1 w1
          = (Ok res2, w2)
       /\ Forall (fun e => ~ is_subprocess e) (new_trace w1 w2).
Proof.
  assert (lacks_cookies (w_sessions half_cached_world !! session_path "B")
          = true) as H1 by (vm_compute; reflexivity).
  assert ("B" ∉ ([] : list string)) as H2 by apply not_elem_of_nil.
  assert (half_run = (Ok (result_of ∅ half_run), half_run.2)) as H3
    by (vm_compute; reflexivity).
  exact (conj H1 (conj H2 (conj H3
           (generate_batch_without_cookies (example_env false) ["A"] "B" []
              2 "Auto_" half_cached_world (result_of ∅ half_run) half_run.2
              H1 H2 H3)))).
Defined.

(** The batch of quota 3 leaves no temporary file. *)
Lemma generate_batch_temp_files_witness :
  (forall p, p ∈ ["A"; "B"] -> cookie_file_of p ∉ w_temp cached_world)
  /\ quota_run = (Ok (result_of ∅ quota_run), quota_run.2)
  /\ w_temp quota_run.2 = w_temp cached_world.
Proof.
  assert (forall p, p ∈ ["A"; "B"] -> cookie_file_of p ∉ w_temp cached_world)
    as H1 by (intros p _; apply not_elem_of_empty).
  assert (quota_run = (Ok (result_of ∅ quota_run), quota_run.2)) as H2
    by (vm_compute; reflexivity).
  exact (conj H1 (conj H2
           (generate_batch_temp_files (example_env false) ["A"; "B"] 3 "Auto_"
              cached_world (result_of ∅ quota_run) quota_run.2 H1 H2))).
Defined.

(** The batch of quota 3 over two profiles takes eight seconds or more. *)
Lemma generate_batch_duration_witness :
  clock_monotone (example_env false)
  /\ (1 <= 3)%Z
  /\ quota_run = (Ok (result_of ∅ quota_run), quota_run.2)
  /\ (w_clock cached_world
      + Qc_of_Z (2 * (3 - 1) * Z.of_nat (length ["A"; "B"]))
      ≤ w_clock quota_run.2)%Qc.
Proof.
  assert (clock_monotone (example_env false)) as H1
    by (intros w; vm_compute; discriminate).
  assert (1 <= 3)%Z as H2 by lia.
  assert (quota_run = (Ok (result_of ∅ quota_run), quota_run.2)) as H3
    by (vm_compute; reflexivity).
  exact (conj H1 (conj H2 (conj H3
           (generate_batch_duration (example_env false) ["A"; "B"] 3 "Auto_"
              cached_world (result_of ∅ quota_run) quota_run.2 H1 H2 H3)))).
Defined.



(** The first [start] registers the two jobs. *)
Lemma start_registers_jobs_witness :
  first_start = (Ok true, first_start.2)
  /\ w_jobs (world first_start.2)
     = (w_jobs (world fresh_system)
        ++ new_jobs (get_default
                       (refresh_interval_minutes (config (self fresh_system)))
                       60%Z)
                    (w_clock (world fresh_system)))%list.
Proof.
  assert (first_start = (Ok true, first_start.2)) as H1
    by (vm_compute; reflexivity).
  exact (conj H1
           (start_registers_jobs (example_env false) fresh_system
              first_start.2 H1)).
Defined.

(** The counters of the started scheduler. *)
Lemma reachable_counters_witness :
  reachable (example_env false) example_config fresh_world started_system
  /\ counters_for example_config (emails_generated (self started_system))
  /\ counters_for example_config (extraction_counts (self started_system))
  /\ config (self started_system) = example_config
  /\ cookie_extractor (self started_system) = example_config.
Proof.
  assert (reachable (example_env false) example_config fresh_world
            started_system) as R1 by (by exists [CallStart; Background]).
  exact (conj R1
           (reachable_counters (example_env false) example_config fresh_world
              started_system R1)).
Defined.

(** The started scheduler is stopped and can be started again. *)
Lemma stop_then_start_witness :
  reachable (example_env false) example_config fresh_world started_system
  /\ first_stop = (Ok true, first_stop.2)
  /\ scheduler_thread
       (self (step (example_env false) Background first_stop.2))
     = Some ThreadDead
  /\ running (self (step (example_env false) Background first_stop.2)) = false
  /\ exists s3,
       start (example_env false)
         (step (example_env false) Background first_stop.2)
       = (Ok true, s3).
Proof.
  assert (reachable (example_env false) example_config fresh_world
            started_system) as R1 by (by exists [CallStart; Background]).
  assert (first_stop = (Ok true, first_stop.2)) as H1
    by (vm_compute; reflexivity).
  exact (conj R1 (conj H1
           (stop_then_start (example_env false) example_config fresh_world
              started_system first_stop.2 R1 H1))).
Defined.

(** An output without an address. *)
Lemma parse_needs_at_and_dot_witness :
  str_in "@" "Failed to generate email"
  && str_in "." "Failed to generate email" = false
  /\ _parse_email_from_output "Failed to generate email" = None.
Proof.
  assert (str_in "@" "Failed to generate email"
          && str_in "." "Failed to generate email" = false) as H1
    by (vm_compute; reflexivity).
  exact (conj H1 (parse_needs_at_and_dot "Failed to generate email" H1)).
Defined.

(** The address of the installation, printed and read back. *)
Lemma parse_printed_address_witness :
  no_space "a@icloud.com" = true
  /\ has_at_and_dot "a@icloud.com" = true
  /\ _parse_email_from_output
       (strip ("Generated email: " +:+ "a@icloud.com" +:+ String "010" ""))
     = Some "a@icloud.com"
  /\ _parse_email_from_output "a@icloud.com" = Some "a@icloud.com".
Proof.
  assert (no_space "a@icloud.com" = true) as H1 by (vm_compute; reflexivity).
  assert (has_at_and_dot "a@icloud.com" = true) as H2
    by (vm_compute; reflexivity).
  exact (conj H1 (conj H2 (parse_printed_address "a@icloud.com" H1 H2))).
Defined.

(** A call in the installation that parses as the program does. *)
Lemma generate_email_parsed_witness :
  parses_output parsing_env
  /\ parsed_call = (Ok (true, Some "a@icloud.com"), parsed_call.2)
  /\ exists out err e,
       env_subprocess parsing_env
         (set_temp ({[cookie_file_of "A"]} ∪ w_temp cached_world) cached_world)
         (generator_command "A" None) = ProcDone 0 out err
       /\ Some "a@icloud.com" = Some e /\ e ≠ ""
       /\ _parse_email_from_output (strip out) = Some e
       /\ has_char "@" out /\ has_char "." out.
Proof.
  assert (parses_output parsing_env) as H1 by (intros out; reflexivity).
  assert (parsed_call = (Ok (true, Some "a@icloud.com"), parsed_call.2)) as H2
    by (vm_compute; reflexivity).
  exact (conj H1 (conj H2
           (generate_email_parsed parsing_env "A" None cached_world
              (Some "a@icloud.com") parsed_call.2 H1 H2))).
Defined.

(** The second turn of the loop of the started scheduler finds no job due. *)
Lemma run_scheduler_step_idle_witness :
  scheduler_thread (self started_system) = Some ThreadLoop
  /\ running (self started_system) = true
  /\ Forall (fun j => (w_clock (world started_system) < job_next_run j)%Qc)
            (w_jobs (world started_system))
  /\ run_scheduler_step (example_env false) started_system
     = (Ok tt,
        mkSystem (self started_system)
          (time_sleep (example_env false) 1 (world started_system)).2).
Proof.
  assert (scheduler_thread (self started_system) = Some ThreadLoop) as H1
    by (vm_compute; reflexivity).
  assert (running (self started_system) = true) as H2
    by (vm_compute; reflexivity).
  assert (Forall (fun j => (w_clock (world started_system)
                            < job_next_run j)%Qc)
                 (w_jobs (world started_system))) as H3
    by (vm_compute; repeat constructor).
  exact (conj H1 (conj H2 (conj H3
           (run_scheduler_step_idle (example_env false) started_system
              H1 H2 H3)))).
Defined.

